(** * IMPACT: the top-down cumulative trapezoidal integrator

    A shallow embedding of the integration routines of the IMPACT validation
    scripts:

    - [integrate_from_top]            (IMPACT_MATLAB/test_numerical_methods.py)
    - [integrate_from_top_v1] and
      [analytical_cumulative_manual]  (IMPACT_MATLAB/debug_nonuniform.py)

    and of the code around them: the result collector [TestResults], four
    tests and the loop of the convergence test of test_numerical_methods.py,
    and the test runner ([run_test], [run_all_tests]) and [calc_ionization]
    of test_atmospheric_boundary_integration.py.

    The Python code works on NumPy arrays of binary64 numbers.  The embedding
    is written once, over an interface [Scalar] of the arithmetic the code
    uses, and is read at two instances: IEEE binary64 ([B64], on Corelib's
    [spec_float], with NaN, infinities, signed zeros and rounding) and exact
    rational arithmetic ([Qc]), the "sequence of real numbers" of the data
    model.  The convergence test calls the exponential and is read at a
    third, the real numbers of the Standard Library ([Real]).  Integer
    arrays (the tests build some grids from integer literals) are read as
    the same numbers.  Arrays are lists, indexed reads and writes go through
    [getitem] and [setitem], which raise [IndexError] out of range as NumPy
    does. *)

From Stdlib Require Import ZArith QArith Qcanon Qcabs Lia.
From Stdlib Require Import Reals Lra.
From Stdlib Require Import Floats.SpecFloat.
From stdpp Require Import base list strings gmap.

Set Default Proof Using "Type*".

(** ** Exceptions and results *)

(** [IndexError] is what an out-of-range subscript raises, [ValueError] what
    SciPy's [cumulative_trapezoid] raises on malformed input.  [ShapeMismatch]
    is the error class of the specification; no code path constructs it. *)
Inductive exn : Type :=
  | IndexError
  | ValueError
  | ShapeMismatch.

Inductive result (A : Type) : Type :=
  | Ok (a : A)
  | Raise (e : exn).
Arguments Ok {A} a.
Arguments Raise {A} e.

(** Sequencing: the first exception aborts what follows. *)
#[export] Instance result_bind : MBind result := λ A B k m,
  match m with
  | Ok a => k a
  | Raise e => Raise e
  end.

(** ** The arithmetic interface *)

Class Scalar (A : Type) : Type := {
  zero : A;                 (* 0.0: the fill value of np.zeros, the literal 0 *)
  half : A;                 (* the literal 0.5 *)
  two : A;                  (* the literal 2.0 *)
  add : A → A → A;
  sub : A → A → A;
  mul : A → A → A;
  div : A → A → A;
  neg : A → A;
  neqb : A → A → bool;      (* x != y *)
  ltb : A → A → bool;       (* x < y *)
}.

(** ** Arrays *)

Section Arrays.
Context {A : Type}.

(** [a[i]] for [0 <= i]. *)
Definition getitem (a : list A) (i : nat) : result A :=
  match a !! i with
  | Some x => Ok x
  | None => Raise IndexError
  end.

(** [a[i] = v] for [0 <= i]; the array is updated in place. *)
Definition setitem (a : list A) (i : nat) (v : A) : result (list A) :=
  if decide (i < length a) then Ok (<[i:=v]> a) else Raise IndexError.

(** [for i in idx: s = body(s, i)], stopping at the first exception. *)
Fixpoint for_each {S : Type} (body : S → nat → result S) (s : S)
    (idx : list nat) : result S :=
  match idx with
  | [] => Ok s
  | i :: rest => s' ← body s i; for_each body s' rest
  end.
End Arrays.

(** [range(n-1, 0, -1)]: the indices [n-1, n-2, ..., 1]. *)
Definition range_down_to_1 (n : nat) : list nat := reverse (seq 1 (n - 1)).

(** [range(n-2, -1, -1)]: the indices [n-2, n-3, ..., 0]. *)
Definition range_down_to_0 (n : nat) : list nat := reverse (seq 0 (n - 1)).

(** ** The integrators *)

Section Integrators.
Context {A : Type} `{Scalar A}.

(** One iteration of the loop of [integrate_from_top]:
<<
    dz_local = z[i] - z[i-1]
    if dz_local != 0:
        area = 0.5 * (q_tot[i-1] + q_tot[i]) * dz_local
        q_cum[i-1] = q_cum[i] + area
>> *)
Definition integrate_from_top_body (z q_tot : list A) (q_cum : list A)
    (i : nat) : result (list A) :=
  zi ← getitem z i;
  zp ← getitem z (i - 1);
  let dz_local := sub zi zp in
  if neqb dz_local zero then
    qp ← getitem q_tot (i - 1);
    qi ← getitem q_tot i;
    let area := mul (mul half (add qp qi)) dz_local in
    ci ← getitem q_cum i;
    setitem q_cum (i - 1) (add ci area)
  else Ok q_cum.

(** [integrate_from_top(z, q_tot)] of test_numerical_methods.py. *)
Definition integrate_from_top (z q_tot : list A) : result (list A) :=
  let n := length z in
  let q_cum := replicate n zero in
  for_each (integrate_from_top_body z q_tot) q_cum (range_down_to_1 n).

(** One iteration of the loop of [analytical_cumulative_manual]:
<<
    dz_local = z[i+1] - z[i]
    if dz_local != 0:
        area = 0.5 * (q_tot[i] + q_tot[i+1]) * dz_local
        q_cum[i] = q_cum[i+1] + area
>> *)
Definition analytical_cumulative_manual_body (z q_tot : list A)
    (q_cum : list A) (i : nat) : result (list A) :=
  zn ← getitem z (i + 1);
  zi ← getitem z i;
  let dz_local := sub zn zi in
  if neqb dz_local zero then
    qi ← getitem q_tot i;
    qn ← getitem q_tot (i + 1);
    let area := mul (mul half (add qi qn)) dz_local in
    cn ← getitem q_cum (i + 1);
    setitem q_cum i (add cn area)
  else Ok q_cum.

(** [analytical_cumulative_manual(z, q_tot)] of debug_nonuniform.py. *)
Definition analytical_cumulative_manual (z q_tot : list A) : result (list A) :=
  let n := length z in
  let q_cum := replicate n zero in
  for_each (analytical_cumulative_manual_body z q_tot) q_cum (range_down_to_0 n).

(** [np.diff(x)]: [x[k+1] - x[k]]. *)
Fixpoint np_diff (x : list A) : list A :=
  match x with
  | x0 :: ((x1 :: _) as xs) => sub x1 x0 :: np_diff xs
  | _ => []
  end.

(** [np.cumsum(t)]: [t[0], t[0]+t[1], ...], accumulated left to right. *)
Fixpoint cumsum_from (acc : A) (t : list A) : list A :=
  match t with
  | [] => []
  | t0 :: ts => let acc' := add acc t0 in acc' :: cumsum_from acc' ts
  end.

Definition np_cumsum (t : list A) : list A :=
  match t with
  | [] => []
  | t0 :: ts => t0 :: cumsum_from t0 ts
  end.

(** SciPy's [cumulative_trapezoid(y, x, initial=0)] on one-dimensional
    arrays (library code, by its definition):
<<
    if y.shape[axis] == 0: raise ValueError
    d = np.diff(x)
    if d.shape[axis] != y.shape[axis] - 1: raise ValueError
    res = np.cumsum(d * (y[1:] + y[:-1]) / 2.0)
    res = np.concatenate([np.full(1, initial), res])
>> *)
Definition cumulative_trapezoid (y x : list A) : result (list A) :=
  if decide (length y = 0) then Raise ValueError
  else
    let d := np_diff x in
    if decide (length d = length y - 1) then
      let terms :=
        zip_with (λ dk s, div (mul dk s) two) d
                 (zip_with add (drop 1 y) (removelast y)) in
      Ok (zero :: np_cumsum terms)
    else Raise ValueError.

(** [integrate_from_top_v1(z, q_tot)] of debug_nonuniform.py:
<<
    z_flipped = np.flip(z)
    q_flipped = np.flip(q_tot)
    q_cum_flipped = integrate.cumulative_trapezoid(q_flipped, z_flipped, initial=0)
    q_cum = -np.flip(q_cum_flipped)
>> *)
Definition integrate_from_top_v1 (z q_tot : list A) : result (list A) :=
  let z_flipped := reverse z in
  let q_flipped := reverse q_tot in
  q_cum_flipped ← cumulative_trapezoid q_flipped z_flipped;
  Ok (neg <$> reverse q_cum_flipped).
End Integrators.

(** ** The two readings of the arithmetic *)

(** IEEE binary64: 53 bits of precision, exponents up to 1024. *)
Module B64.
Definition prec : Z := 53.
Definition emax : Z := 1024.

Definition float : Type := spec_float.

(** The binary64 number nearest to [m * 2^e]. *)
Definition of_Z_pow2 (m e : Z) : float := binary_normalize prec emax m e false.
Definition of_Z (m : Z) : float := of_Z_pow2 m 0.

Definition nan : float := S754_nan.

Definition is_nan (x : float) : bool :=
  match x with S754_nan => true | _ => false end.

Definition is_finite (x : float) : bool :=
  match x with S754_zero _ | S754_finite _ _ _ => true | _ => false end.

#[global] Instance scalar : Scalar float := {|
  zero := S754_zero false;
  half := of_Z_pow2 1 (-1);
  two := of_Z 2;
  add := SFadd prec emax;
  sub := SFsub prec emax;
  mul := SFmul prec emax;
  div := SFdiv prec emax;
  neg := SFopp;
  neqb x y := negb (SFeqb x y);
  ltb := SFltb;
|}.
End B64.

(** Exact rational arithmetic. *)
Module Exact.
#[global] Instance scalar : Scalar Qc := {|
  zero := 0%Qc;
  half := Q2Qc (1 # 2);
  two := Q2Qc 2;
  add := Qcplus;
  sub := Qcminus;
  mul := Qcmult;
  div := Qcdiv;
  neg := Qcopp;
  neqb x y := negb (Qc_eq_bool x y);
  ltb x y := match (x ?= y)%Qc with Lt => true | _ => false end;
|}.

Definition of_Z (m : Z) : Qc := Q2Qc (inject_Z m).

(** The linear rate [m*z + b] of the exactness test and its
    antiderivative [0.5*m*z^2 + b*z]. *)
Definition linear_rate (m b x : Qc) : Qc := (m * x + b)%Qc.
Definition antiderivative (m b x : Qc) : Qc :=
  (Q2Qc (1 # 2) * m * x * x + b * x)%Qc.
End Exact.

(** ** What the loops compute *)

Section Cumulative.
Context {A : Type} `{Scalar A}.

(** The area the loop adds for the neighbours [(z0, q0)], [(z1, q1)]. *)
Definition trapezoid (z0 z1 q0 q1 : A) : A :=
  mul (mul half (add q0 q1)) (sub z1 z0).

(** The loop of [integrate_from_top] read from the last index backwards:
    the entry at index [i] is the entry at [i+1] plus one trapezoid, it
    stays at the initial zero when the guard [dz_local != 0] fails, and a
    missing rate is an [IndexError]. *)
Fixpoint cumulative (z q : list A) : result (list A) :=
  match z with
  | [] => Ok []
  | z0 :: zs =>
      match zs with
      | [] => Ok [zero]
      | z1 :: _ =>
          r ← cumulative zs (tail q);
          if neqb (sub z1 z0) zero then
            match q with
            | q0 :: q1 :: _ => Ok (add (hd zero r) (trapezoid z0 z1 q0 q1) :: r)
            | _ => Raise IndexError
            end
          else Ok (zero :: r)
      end
  end.

(** Every step of the grid passes the guard [dz_local != 0]. *)
Fixpoint no_zero_step (z : list A) : bool :=
  match z with
  | z0 :: ((z1 :: _) as zs) => neqb (sub z1 z0) zero && no_zero_step zs
  | _ => true
  end.

(** The grid is strictly increasing, resp. strictly decreasing. *)
Fixpoint increasing (z : list A) : bool :=
  match z with
  | z0 :: ((z1 :: _) as zs) => ltb z0 z1 && increasing zs
  | _ => true
  end.

Fixpoint decreasing (z : list A) : bool :=
  match z with
  | z0 :: ((z1 :: _) as zs) => ltb z1 z0 && decreasing zs
  | _ => true
  end.

(** The trapezoid areas of neighbouring samples, by index. *)
Fixpoint trapezoids (z q : list A) : list A :=
  match z, q with
  | z0 :: ((z1 :: _) as zs), q0 :: ((q1 :: _) as qs) =>
      trapezoid z0 z1 q0 q1 :: trapezoids zs qs
  | _, _ => []
  end.

(** The areas [a] summed from the last one backwards, in the order of the
    loop: [((0 + a[m-1]) + a[m-2]) + ... + a[0]]. *)
Definition sum_back (a : list A) : A := foldr (λ ak acc, add acc ak) zero a.

(** All the partial sums of [sum_back], one per index. *)
Fixpoint accumulate_back (a : list A) : list A :=
  match a with
  | [] => [zero]
  | a0 :: rest => add (sum_back rest) a0 :: accumulate_back rest
  end.
End Cumulative.

(** The top index of the specification: the end of the grid with the larger
    altitude, found by comparing [altitude[0]] with [altitude[-1]]. *)
Definition top_index {A : Type} `{Scalar A} (z : list A) : nat :=
  match head z, last z with
  | Some z0, Some zl => if ltb z0 zl then length z - 1 else 0
  | _, _ => 0
  end.

(** Reading the interface at exact arithmetic, for [ring]. *)
Ltac to_Qc :=
  unfold trapezoid;
  cbn [add sub mul div neg zero half two neqb ltb Exact.scalar] in *.

(** The remaining definitions of this part read the specification, not the
    code; the code is compared with them. *)
Section Specification.
Context {A : Type} `{Scalar A}.

(** The trapezoid areas on the path from the top index to index [i], in
    the order in which the path meets them. *)
Definition spec_path_areas (z q : list A) (i : nat) : list A :=
  let t := top_index z in
  let a := trapezoids z q in
  if decide (i ≤ t) then reverse (take (t - i) (drop i a))
  else take (i - t) (drop t a).

(** Their sum, accumulated along the path from the top. *)
Definition spec_cumulative (z q : list A) (i : nat) : A :=
  foldl add zero (spec_path_areas z q i).

(** The path from the top index to [i] uses a trapezoid that touches the
    sample [k]: the trapezoid [j] joins the samples [j] and [j+1]. *)
Definition spec_path_touches (z : list A) (k i : nat) : bool :=
  let t := top_index z in
  existsb (λ j, (j =? k) || (S j =? k)) (seq (min t i) (max t i - min t i)).

(** Index [j] is farther from the top index than index [i]. *)
Definition spec_farther_from_top (z : list A) (i j : nat) : bool :=
  let t := top_index z in
  (max t i - min t i) <? (max t j - min t j).
End Specification.

(** ** The callers of the integrators

    What follows embeds the code around the integrators: the result
    collector, four tests and the loop of the convergence test of
    test_numerical_methods.py, and the test runner and [calc_ionization] of
    test_atmospheric_boundary_integration.py.
    Text written to the terminal is not part of the model: a [print] is
    dropped and taken to succeed, and a function is what it returns, what
    it stores and the exception it lets through. *)

(** *** The result collector [TestResults] *)

(** The message of a recorded result.  A literal message is its text; an
    f-string that prints an array, an exception or a number keeps its
    literal part and the value it prints. *)
Inductive message : Type :=
  | Text (s : string)
  | Text_array (s : string) (a : list B64.float)
  | Text_exn (s : string) (e : exn)
  | Text_float (s : string) (x : B64.float).

Module TestResults.
Record t : Type := mk {
  passed : nat;
  failed : nat;
  results : list (string * string * message);
}.

(** [__init__]. *)
Definition init : t := mk 0 0 [].

(** [add_result(test_name, passed, message)]. *)
Definition add_result (self : t) (test_name : string) (is_passed : bool)
    (msg : message) : t :=
  let status := if is_passed then "PASS" else "FAIL" in
  let results' := results self ++ [(test_name, status, msg)] in
  if is_passed then mk (passed self + 1) (failed self) results'
  else mk (passed self) (failed self + 1) results'.

(** [print_summary()]: the value it returns, [self.failed == 0]. *)
Definition print_summary (self : t) : bool := failed self =? 0.
End TestResults.

(** *** NumPy helpers of the tests *)

(** [np.arange(start, stop, step)] for integers and a positive step. *)
Definition np_arange (start stop step : Z) : list Z :=
  (λ k : nat, (start + Z.of_nat k * step)%Z)
    <$> seq 0 (Z.to_nat ((stop - start + step - 1) / step)).

(** [np.maximum] of two numbers and [np.max] of an array: a NaN wins. *)
Definition np_maximum (x y : B64.float) : B64.float :=
  if B64.is_nan x then x
  else if B64.is_nan y then y
  else if SFltb x y then y else x.

Definition np_max (a : list B64.float) : result B64.float :=
  match a with
  | [] => Raise ValueError
  | x :: rest => Ok (foldl np_maximum x rest)
  end.

(** The constants of test_numerical_methods.py. *)
Definition MACHINE_EPSILON : B64.float := B64.of_Z_pow2 1 (-52).

(** The literal [1e-10] as binary64. *)
Definition lit_1e_10 : B64.float := B64.of_Z_pow2 7737125245533627 (-86).

(** *** Four tests of test_numerical_methods.py *)

(** [test_integration_edge_cases(results)]. *)
Definition test_integration_edge_cases (results : TestResults.t)
    : TestResults.t :=
  let z_single := [B64.of_Z 100] in
  let q_single := [B64.of_Z 1000000000] in
  let results :=
    match
      q_cum_single ← integrate_from_top z_single q_single;
      if length q_cum_single =? 1 then
        x ← getitem q_cum_single 0;
        Ok (q_cum_single, SFeqb x zero)
      else Ok (q_cum_single, false)
    with
    | Ok (_, true) =>
        TestResults.add_result results "Single Point Integration" true
          (Text "Handled correctly (q_cum = 0)")
    | Ok (q_cum_single, false) =>
        TestResults.add_result results "Single Point Integration" false
          (Text_array "Unexpected result: " q_cum_single)
    | Raise e =>
        TestResults.add_result results "Single Point Integration" false
          (Text_exn "Exception: " e)
    end in
  let z_empty : list B64.float := [] in
  let q_empty : list B64.float := [] in
  if length z_empty =? 0 then
    TestResults.add_result results "Empty Array Integration" true
      (Text "Gracefully handled (empty input)")
  else
    match integrate_from_top z_empty q_empty with
    | Ok q_cum_empty =>
        if length q_cum_empty =? 0 then
          TestResults.add_result results "Empty Array Integration" true
            (Text "Gracefully handled")
        else
          TestResults.add_result results "Empty Array Integration" false
            (Text "Unexpected result")
    | Raise e =>
        TestResults.add_result results "Empty Array Integration" true
          (Text_exn "Exception (acceptable): " e)
    end.

(** [test_nan_propagation(results)]; an exception of the integrator is not
    caught here. *)
Definition test_nan_propagation (results : TestResults.t)
    : result TestResults.t :=
  let z := B64.of_Z <$> [100; 200; 300; 400; 500]%Z in
  let q_tot :=
    [B64.of_Z 10000000000; B64.of_Z 1000000000; B64.nan;
     B64.of_Z 100000000; B64.of_Z 10000000] in
  q_cum ← integrate_from_top z q_tot;
  q_cum_2 ← getitem q_cum 2;
  let nan_propagates := B64.is_nan q_cum_2 in
  if nan_propagates then
    Ok (TestResults.add_result results "NaN Propagation" true
          (Text "NaN correctly propagates to output"))
  else
    Ok (TestResults.add_result results "NaN Propagation" false
          (Text "NaN not propagating as expected")).

(** [test_integration_linear(results)]. *)
Definition test_integration_linear (results : TestResults.t)
    : result TestResults.t :=
  let m := B64.of_Z 10000000 in
  let b := B64.of_Z 1000000000 in
  let z_max := 1000%Z in
  let dz := 1%Z in
  let z := B64.of_Z <$> np_arange 0 (z_max + dz) dz in
  let q_tot := (λ zi, add (mul m zi) b) <$> z in
  z_top ← getitem z (length z - 1);
  let total_integral :=
    add (mul (mul half m) (mul z_top z_top)) (mul b z_top) in
  let q_cum_analytical :=
    (λ zi, sub total_integral (add (mul (mul half m) (mul zi zi)) (mul b zi)))
      <$> z in
  q_cum_numerical ← integrate_from_top z q_tot;
  max_error ← np_max (SFabs <$> zip_with sub q_cum_numerical q_cum_analytical);
  scale ← np_max (SFabs <$> q_cum_analytical);
  let relative_error := div max_error scale in
  if SFltb relative_error lit_1e_10 then
    Ok (TestResults.add_result results "Linear Integration" true
          (Text "Exact match (within machine precision)"))
  else
    Ok (TestResults.add_result results "Linear Integration" false
          (Text_float "Error = " (mul relative_error (B64.of_Z 100)))).

(** [test_integration_constant(results)]. *)
Definition test_integration_constant (results : TestResults.t)
    : result TestResults.t :=
  let C := B64.of_Z 1000000000 in
  let z_max := 1000%Z in
  let dz := 1%Z in
  let z := B64.of_Z <$> np_arange 0 (z_max + dz) dz in
  let q_tot := (λ _, mul C (B64.of_Z 1)) <$> z in
  z_top ← getitem z (length z - 1);
  let q_cum_analytical := (λ zi, mul C (sub z_top zi)) <$> z in
  q_cum_numerical ← integrate_from_top z q_tot;
  max_error ← np_max (SFabs <$> zip_with sub q_cum_numerical q_cum_analytical);
  if SFltb max_error MACHINE_EPSILON then
    Ok (TestResults.add_result results "Constant Integration" true
          (Text "Exact match"))
  else
    Ok (TestResults.add_result results "Constant Integration" false
          (Text_float "Error = " max_error)).

(** *** The convergence test, in real arithmetic *)

(** The real numbers, with the exponential function of the Standard
    Library: the arithmetic in which the order of convergence of the test
    below is a statement about the trapezoidal rule and not about
    rounding. *)
Module Real.
#[global] Instance scalar : Scalar R := {|
  zero := 0%R;
  half := (1 / 2)%R;
  two := 2%R;
  add := Rplus;
  sub := Rminus;
  mul := Rmult;
  div := Rdiv;
  neg := Ropp;
  neqb x y := if Req_dec_T x y then false else true;
  ltb x y := if Rlt_dec x y then true else false;
|}.

(** [np.arange(start, stop, step)] for a positive step: the
    [ceil((stop - start) / step)] points [start + k * step]. *)
Definition np_arange (start stop step : R) : list R :=
  (λ k : nat, start + INR k * step)%R
    <$> seq 0 (Z.to_nat (Zceil ((stop - start) / step))).



(** [np.max] of an array; [ValueError] on an empty one. *)
Definition np_max (a : list R) : result R :=
  match a with
  | [] => Raise ValueError
  | x :: rest => Ok (foldl Rmax x rest)
  end.
End Real.



(** *** The test runner [AtmosphericBoundaryValidator] *)

(** The values the result dictionaries of the tests hold, with Python's
    truth value of each. *)
Inductive pyvalue : Type :=
  | PyBool (b : bool)
  | PyStr (s : string)
  | PyFloat (x : B64.float).

Definition truthy (v : pyvalue) : bool :=
  match v with
  | PyBool b => b
  | PyStr s => negb (String.eqb s "")
  | PyFloat x => negb (SFeqb x zero)
  end.

(** The exceptions that are not instances of [Exception], which
    [except Exception] does not catch. *)
Inductive base_exception : Type :=
  | SystemExit
  | KeyboardInterrupt
  | GeneratorExit
  | Other_base_exception (class_name : string).

(** What calling a test function does: it returns a dictionary, it raises
    an instance [e] of [Exception], of which the runner uses [str(e)], or
    it raises an exception outside [Exception].  A test whose returned
    value cannot be read (it has no [get] method, or its 'passed' entry has
    no truth value) ends as [Raises] with the text of that exception: the
    runner stores the value, reading it fails inside the [try] before a
    counter is touched, and the handler overwrites the entry. *)
Inductive outcome : Type :=
  | Returns (result : gmap string pyvalue)
  | Raises (str_e : string)
  | Escapes (e : base_exception).

(** How a call ends: it returns a value, or an exception propagates to the
    caller.  The state of the validator is mutated in place and so is
    there in both cases. *)
Inductive completion (A : Type) : Type :=
  | Returned (a : A)
  | Propagated (e : base_exception).
Arguments Returned {A} a.
Arguments Propagated {A} e.

Module AtmosphericBoundaryValidator.
Record t : Type := mk {
  verbose : bool;
  test_results : gmap string (gmap string pyvalue);
  passed_tests : nat;
  failed_tests : nat;
  errors : list string;
}.

(** [__init__(verbose)] and [reset_results()]. *)
Definition init (verbose : bool) : t := mk verbose ∅ 0 0 [].

Definition reset_results (self : t) : t := mk (verbose self) ∅ 0 0 [].

(** [run_test(test_name, test_func)]: the new state, and the value
    returned, [result.get('passed', False)], or [False] after a caught
    exception.  An exception outside [Exception] passes through the
    [try] before anything is written. *)
Definition run_test (self : t) (test_name : string) (test_func : outcome)
    : t * completion pyvalue :=
  match test_func with
  | Returns result =>
      let test_results' := <[test_name := result]> (test_results self) in
      let is_passed := default (PyBool false) (result !! "passed") in
      if truthy is_passed then
        (mk (verbose self) test_results' (passed_tests self + 1)
            (failed_tests self) (errors self), Returned is_passed)
      else
        (mk (verbose self) test_results' (passed_tests self)
            (failed_tests self + 1) (errors self), Returned is_passed)
  | Raises str_e =>
      let result : gmap string pyvalue :=
        <["passed" := PyBool false]>
          (<["message" := PyStr ("Exception: " +:+ str_e)]>
             (<["error" := PyStr str_e]> ∅)) in
      (mk (verbose self) (<[test_name := result]> (test_results self))
          (passed_tests self) (failed_tests self + 1) (errors self),
       Returned (PyBool false))
  | Escapes e => (self, Propagated e)
  end.

(** What [run_test] does with a test, read off its branches: the truth
    value it returns, the dictionary it stores under the test's name, and
    the exception it lets through. *)
Definition passes (test_func : outcome) : bool :=
  match test_func with
  | Returns result => truthy (default (PyBool false) (result !! "passed"))
  | Raises _ => false
  | Escapes _ => false
  end.

Definition stored (test_func : outcome) : option (gmap string pyvalue) :=
  match test_func with
  | Returns result => Some result
  | Raises str_e =>
      Some (<["passed" := PyBool false]>
              (<["message" := PyStr ("Exception: " +:+ str_e)]>
                 (<["error" := PyStr str_e]> ∅)))
  | Escapes _ => None
  end.

Definition escapes (test_func : outcome) : option base_exception :=
  match test_func with
  | Escapes e => Some e
  | _ => None
  end.

(** The names under which [run_all_tests] runs its twenty tests, in order. *)
Definition test_names : list string :=
  [ "500 km Density"; "Top Boundary Dissipation"; "Top Boundary Cumulative";
    "Grid Handling Top";
    "Density Gradient"; "Full Energy Deposition"; "Ionization Maximum";
    "Cutoff Handling";
    "MSIS Density Profile"; "MSIS Species Consistency";
    "MSIS Interpolation Accuracy"; "Scale Height Consistency";
    "Density-Dissipation Relationship"; "Density-Ionization Relationship";
    "No Negative Values"; "Dynamic Range Handling";
    "Column Ionization Units"; "Column Energy Units"; "Column Convergence";
    "Column Magnitude" ].

(** The dictionary [run_all_tests] returns. *)
Record summary : Type := mk_summary {
  summary_passed_tests : nat;
  summary_failed_tests : nat;
  summary_total_tests : nat;
  summary_success_rate : B64.float;
  summary_all_passed : bool;
  summary_results : gmap string (gmap string pyvalue);
}.

(** [run_several] runs the tests of the given names one after the other,
    as the [self.run_test(...)] statements of [run_all_tests] do, and
    stops at the first exception that propagates; [tests] gives what the
    test method run under each name does (the test methods read the
    validator and do not change it). *)
Fixpoint run_several (self : t) (tests : string → outcome)
    (names : list string) : t * completion unit :=
  match names with
  | [] => (self, Returned tt)
  | name :: rest =>
      match run_test self name (tests name) with
      | (self, Returned _) => run_several self tests rest
      | (self, Propagated e) => (self, Propagated e)
      end
  end.

(** [run_all_tests()]: the final state and the dictionary returned, unless
    an exception propagates out of one of the tests. *)
Definition run_all_tests (self : t) (tests : string → outcome)
    : t * completion summary :=
  let self := reset_results self in
  match run_several self tests test_names with
  | (self, Propagated e) => (self, Propagated e)
  | (self, Returned _) =>
      let total := passed_tests self + failed_tests self in
      let success_rate :=
        div (B64.of_Z (100 * Z.of_nat (passed_tests self)))
            (B64.of_Z (Z.of_nat (Nat.max 1 total))) in
      (self,
       Returned
         (mk_summary (passed_tests self) (failed_tests self) total success_rate
                     (failed_tests self =? 0) (test_results self)))
  end.
End AtmosphericBoundaryValidator.

(** *** [calc_ionization] and the two-dimensional arrays it builds *)

(** A two-dimensional array: its shape, and its rows. *)
Record array2 (A : Type) : Type := mk_array2 {
  shape0 : nat;
  shape1 : nat;
  rows : list (list A);
}.
Arguments mk_array2 {A} shape0 shape1 rows.
Arguments shape0 {A} a.
Arguments shape1 {A} a.
Arguments rows {A} a.

(** The array holds what its shape says. *)
Definition well_shaped {A : Type} (a : array2 A) : Prop :=
  length (rows a) = shape0 a ∧ Forall (λ r, length r = shape1 a) (rows a).

(** The literals of [calc_ionization]. *)
Class Literals (A : Type) : Type := {
  IONIZATION_ENERGY_KEV : A;    (* 0.035 *)
  lit_1e5 : A;                  (* 1e5 *)
}.

#[global] Instance B64_literals : Literals B64.float := {|
  IONIZATION_ENERGY_KEV := B64.of_Z_pow2 1261007895663739 (-55);
  lit_1e5 := B64.of_Z 100000;
|}.

#[global] Instance Exact_literals : Literals Qc := {|
  IONIZATION_ENERGY_KEV := Q2Qc (35 # 1000);
  lit_1e5 := Exact.of_Z 100000;
|}.

Section Calc_ionization.
Context {A : Type} `{Scalar A} `{Literals A}.

(** NumPy's broadcasting of two lengths along one axis. *)
Definition broadcast_shape (a b : nat) : result nat :=
  if a =? b then Ok a
  else if a =? 1 then Ok b
  else if b =? 1 then Ok a
  else Raise ValueError.

(** An axis of length 1 repeated [n] times; any other axis is unchanged. *)
Definition stretch {B : Type} (n : nat) (l : list B) : list B :=
  match l with
  | [x] => replicate n x
  | _ => l
  end.

(** An elementwise operation on one-dimensional arrays, with broadcasting. *)
Definition broadcast1 (op : A → A → A) (a b : list A) : result (list A) :=
  c ← broadcast_shape (length a) (length b);
  Ok (zip_with op (stretch c a) (stretch c b)).

(** An elementwise operation on two-dimensional arrays, with broadcasting. *)
Definition broadcast2 (op : A → A → A) (a b : array2 A) : result (array2 A) :=
  r ← broadcast_shape (shape0 a) (shape0 b);
  c ← broadcast_shape (shape1 a) (shape1 b);
  Ok (mk_array2 r c
        (zip_with (λ ra rb : list A, zip_with op (stretch c ra) (stretch c rb))
                  (stretch r (rows a)) (stretch r (rows b)))).

(** [a[i, :]]. *)
Definition getrow (a : array2 A) (i : nat) : result (list A) :=
  if decide (i < shape0 a) then getitem (rows a) i else Raise IndexError.

(** [a[i, :] = v]: [v] has the length of a row, or length 1. *)
Definition setrow (a : array2 A) (i : nat) (v : list A) : result (array2 A) :=
  if decide (i < shape0 a) then
    if decide (length v = shape1 a ∨ length v = 1) then
      Ok (mk_array2 (shape0 a) (shape1 a)
            (<[i := stretch (shape1 a) v]> (rows a)))
    else Raise ValueError
  else Raise IndexError.

(** One iteration of the loop of [calc_ionization]:
<<
      dz = z_cm[i] - z_cm[i-1]
      q_cum[i, :] = q_cum[i-1, :] + 0.5 * (q_tot[i, :] + q_tot[i-1, :]) * dz
>> *)
Definition calc_ionization_body (z_cm : list A) (q_tot : array2 A)
    (q_cum : array2 A) (i : nat) : result (array2 A) :=
  zi ← getitem z_cm i;
  zp ← getitem z_cm (i - 1);
  let dz := sub zi zp in
  cp ← getrow q_cum (i - 1);
  qi ← getrow q_tot i;
  qp ← getrow q_tot (i - 1);
  s ← broadcast1 add qi qp;
  let area := (λ x : A, mul (mul half x) dz) <$> s in
  v ← broadcast1 add cp area;
  setrow q_cum i v.

(** [calc_ionization(Qe, z, f, H)]:
<<
      nz, nE = f.shape
      H_grid = np.tile(H.reshape(-1, 1), (1, nE))
      Qe_grid = np.tile(Qe.reshape(1, -1), (nz, 1))
      q_tot = (Qe_grid / IONIZATION_ENERGY_KEV) * f / H_grid
      z_cm = z * 1e5
      q_cum = np.zeros((nz, nE))
      for i in range(1, nz): ...
      return q_cum, q_tot
>> *)
Definition calc_ionization (Qe z : list A) (f : array2 A) (H_ : list A)
    : result (array2 A * array2 A) :=
  let nz := shape0 f in
  let nE := shape1 f in
  let H_grid := mk_array2 (length H_) nE ((λ h : A, replicate nE h) <$> H_) in
  let Qe_grid := mk_array2 nz (length Qe) (replicate nz Qe) in
  let Qe_scaled :=
    mk_array2 (shape0 Qe_grid) (shape1 Qe_grid)
      ((λ row : list A, (λ x : A, div x IONIZATION_ENERGY_KEV) <$> row)
         <$> rows Qe_grid) in
  t ← broadcast2 mul Qe_scaled f;
  q_tot ← broadcast2 div t H_grid;
  let z_cm := (λ x : A, mul x lit_1e5) <$> z in
  let q_cum := mk_array2 nz nE (replicate nz (replicate nE zero)) in
  q_cum ← for_each (calc_ionization_body z_cm q_tot) q_cum (seq 1 (nz - 1));
  Ok (q_cum, q_tot).

(** The column [j] of an array. *)
Definition column (a : array2 A) (j : nat) : list A :=
  omap (λ row : list A, row !! j) (rows a).

(** The entry [a[i, j]], if there is one. *)
Definition entry (a : array2 A) (i j : nat) : option A :=
  row ← rows a !! i; row !! j.
End Calc_ionization.

Section Generic.
Context {A : Type} `{Scalar A}.
Implicit Types z q r : list A.

Lemma getitem_Ok (a : list A) i x : a !! i = Some x → getitem a i = Ok x.
Proof. unfold getitem. by intros ->. Qed.

Lemma getitem_Raise (a : list A) i : a !! i = None → getitem a i = Raise IndexError.
Proof. unfold getitem. by intros ->. Qed.

Lemma cumulative_cons2 (z0 z1 : A) (zs : list A) q :
  cumulative (z0 :: z1 :: zs) q =
    r ← cumulative (z1 :: zs) (tail q);
    if neqb (sub z1 z0) zero then
      match q with
      | q0 :: q1 :: _ => Ok (add (hd zero r) (trapezoid z0 z1 q0 q1) :: r)
      | _ => Raise IndexError
      end
    else Ok (zero :: r).
Proof. done. Qed.

Lemma cumulative_length z q r : cumulative z q = Ok r → length r = length z.
Proof.
  revert q r. induction z as [|z0 zs IH]; intros q r; simpl.
  - by intros [= <-].
  - destruct zs as [|z1 zs']; [by intros [= <-]|].
    destruct (cumulative (z1 :: zs') (tail q)) as [r'|e] eqn:E; [|done].
    apply IH in E. cbn [mbind result_bind].
    destruct (neqb _ _).
    + destruct q as [|q0 [|q1 q']]; try done. intros [= <-]. simpl. by rewrite E.
    + intros [= <-]. simpl. by rewrite E.
Qed.

Lemma cumulative_Raise z q e : cumulative z q = Raise e → e = IndexError.
Proof.
  revert q. induction z as [|z0 zs IH]; intros q; simpl; [done|].
  destruct zs as [|z1 zs']; [done|].
  destruct (cumulative (z1 :: zs') (tail q)) as [r'|e'] eqn:E; cbn [mbind result_bind].
  - destruct (neqb _ _); [|done].
    destruct q as [|q0 [|q1 q']]; try done; by intros [= <-].
  - intros [= <-]. eauto.
Qed.

(** An exception in a suffix of the grid is the exception of the whole. *)
Lemma cumulative_drop_Raise j z q e :
  cumulative (drop j z) (drop j q) = Raise e → cumulative z q = Raise e.
Proof.
  revert z q. induction j as [|j IH]; intros z q; [by rewrite !drop_0|].
  destruct z as [|z0 zs]; [done|].
  intros E. assert (cumulative zs (tail q) = Raise e) as E'.
  { apply IH. destruct q; simpl in *; [by rewrite drop_nil|done]. }
  simpl. destruct zs as [|z1 zs']; [done|]. by rewrite E'.
Qed.

Lemma tail_drop {B : Type} (l : list B) j : tail (drop j l) = drop (S j) l.
Proof.
  revert l. induction j as [|j IH]; intros [|x l]; simpl; done || by rewrite <- IH.
Qed.

Lemma last_drop_lt {B : Type} (l : list B) j :
  j < length l → last (drop j l) = last l.
Proof.
  intros Hj. rewrite !last_lookup, lookup_drop, length_drop. f_equal. lia.
Qed.

Lemma drop_tail {B : Type} (l : list B) j : drop j (tail l) = drop (S j) l.
Proof. destruct l; [|done]. cbn [tail drop]. by rewrite drop_nil. Qed.

(** One iteration at index [j+1], on an array that is zero up to [j]. *)
Lemma integrate_from_top_body_step z q j (c zi zp : A) r' :
  z !! S j = Some zi →
  z !! j = Some zp →
  integrate_from_top_body z q (replicate (S j) zero ++ c :: r') (S j) =
    if neqb (sub zi zp) zero then
      match drop j q with
      | q0 :: q1 :: _ =>
          Ok (replicate j zero ++ add c (trapezoid zp zi q0 q1) :: c :: r')
      | _ => Raise IndexError
      end
    else Ok (replicate j zero ++ zero :: c :: r').
Proof.
  intros Hzi Hzp. unfold integrate_from_top_body.
  replace (S j - 1) with j by lia.
  rewrite (getitem_Ok _ _ _ Hzi), (getitem_Ok _ _ _ Hzp). cbn [mbind result_bind].
  destruct (neqb (sub zi zp) zero) eqn:G.
  2:{ by rewrite replicate_S_end, <- app_assoc. }
  destruct (q !! j) as [q0|] eqn:Hq0.
  2:{ rewrite (getitem_Raise _ _ Hq0). apply lookup_ge_None_1 in Hq0.
      by rewrite (drop_ge q j). }
  rewrite (getitem_Ok _ _ _ Hq0), (drop_S _ _ _ Hq0). cbn [mbind result_bind].
  destruct (q !! S j) as [q1|] eqn:Hq1.
  2:{ rewrite (getitem_Raise _ _ Hq1). apply lookup_ge_None_1 in Hq1.
      by rewrite (drop_ge q (S j)). }
  rewrite (getitem_Ok _ _ _ Hq1), (drop_S _ _ _ Hq1). cbn [mbind result_bind].
  rewrite (getitem_Ok _ (S j) c).
  2:{ rewrite lookup_app_r; rewrite length_replicate; [|lia].
      by replace (S j - S j) with 0 by lia. }
  cbn [mbind result_bind]. unfold setitem.
  rewrite length_app, length_replicate.
  destruct (decide (j < S j + length (c :: r'))) as [_|?]; [|lia].
  rewrite replicate_S_end, <- app_assoc. cbn [app].
  rewrite insert_app_r_alt; rewrite length_replicate; [|lia].
  by replace (j - j) with 0 by lia.
Qed.

(** The loop invariant of [integrate_from_top]: once the indices above [j]
    are done, the array holds zeros below [j] and the finished suffix from
    [j] on; the remaining iterations complete it. *)
Lemma integrate_from_top_loop z q j r :
  j < length z →
  cumulative (drop j z) (drop j q) = Ok r →
  for_each (integrate_from_top_body z q) (replicate j zero ++ r)
           (reverse (seq 1 j)) = cumulative z q.
Proof.
  revert r. induction j as [|j IH]; intros r Hj E.
  { rewrite !drop_0 in E. by rewrite E. }
  rewrite seq_S, reverse_snoc. cbn [for_each]. change (1 + j) with (S j).
  destruct (lookup_lt_is_Some_2 z (S j) Hj) as [zi Hzi].
  destruct (lookup_lt_is_Some_2 z j ltac:(lia)) as [zp Hzp].
  assert (length r = length (drop (S j) z)) as Hlen by eauto using cumulative_length.
  rewrite length_drop in Hlen.
  destruct r as [|c r']; [simpl in Hlen; lia|].
  pose proof (drop_S _ _ _ Hzp) as Dj. pose proof (drop_S _ _ _ Hzi) as DSj.
  assert (cumulative (drop j z) (drop j q) =
          if neqb (sub zi zp) zero then
            match drop j q with
            | q0 :: q1 :: _ => Ok (add c (trapezoid zp zi q0 q1) :: c :: r')
            | _ => Raise IndexError
            end
          else Ok (zero :: c :: r')) as Ej.
  { rewrite Dj, DSj, cumulative_cons2, <- DSj, tail_drop, E. done. }
  rewrite (integrate_from_top_body_step z q j c zi zp r' Hzi Hzp).
  destruct (neqb (sub zi zp) zero).
  - destruct (drop j q) as [|q0 [|q1 q']] eqn:Dq; cbn [mbind result_bind].
    + symmetry. apply (cumulative_drop_Raise j). by rewrite Dq.
    + symmetry. apply (cumulative_drop_Raise j). by rewrite Dq.
    + cbn [mbind result_bind]. apply IH; [lia|done].
  - cbn [mbind result_bind]. apply IH; [lia|done].
Qed.

(** [integrate_from_top] is [cumulative], on every input. *)
Lemma integrate_from_top_cumulative z q :
  integrate_from_top z q = cumulative z q.
Proof.
  unfold integrate_from_top, range_down_to_1.
  destruct (decide (length z = 0)) as [Hn|Hn].
  { destruct z; [done|simpl in Hn; lia]. }
  assert (∃ zl, z !! (length z - 1) = Some zl) as [zl Hzl].
  { apply lookup_lt_is_Some_2. lia. }
  assert (drop (length z - 1) z = [zl]) as D.
  { rewrite (drop_S _ _ _ Hzl). rewrite drop_ge; [done|lia]. }
  replace (replicate (length z) zero)
    with (replicate (length z - 1) zero ++ [zero : A]).
  2:{ rewrite <- replicate_S_end. f_equal. lia. }
  apply integrate_from_top_loop; [lia|]. by rewrite D.
Qed.

(** The loop of [analytical_cumulative_manual] is the loop of
    [integrate_from_top] with the index shifted by one. *)
Lemma analytical_cumulative_manual_body_shift z q s i :
  analytical_cumulative_manual_body z q s i = integrate_from_top_body z q s (S i).
Proof.
  unfold analytical_cumulative_manual_body, integrate_from_top_body.
  replace (S i - 1) with i by lia. by replace (i + 1) with (S i) by lia.
Qed.

Lemma for_each_ext {S : Type} (f g : S → nat → result S) (h : nat → nat) s idx :
  (∀ s i, f s i = g s (h i)) → for_each f s idx = for_each g s (h <$> idx).
Proof.
  intros Hfg. revert s. induction idx as [|i idx IH]; intros s; [done|].
  cbn [for_each fmap list_fmap]. rewrite Hfg. destruct (g s (h i)); [|done].
  cbn [mbind result_bind]. apply IH.
Qed.

Lemma analytical_cumulative_manual_integrate_from_top z q :
  analytical_cumulative_manual z q = integrate_from_top z q.
Proof.
  unfold analytical_cumulative_manual, integrate_from_top.
  rewrite (for_each_ext _ (integrate_from_top_body z q) S).
  2:{ intros. apply analytical_cumulative_manual_body_shift. }
  unfold range_down_to_0, range_down_to_1.
  by rewrite fmap_reverse, fmap_S_seq.
Qed.

(** *** Results, lengths and exceptions *)

Lemma cumulative_Ok z q :
  length z ≤ length q → ∃ r, cumulative z q = Ok r.
Proof.
  revert q. induction z as [|z0 zs IH]; intros q Hlen; [by eexists|].
  destruct zs as [|z1 zs']; [by eexists|].
  destruct q as [|q0 [|q1 q']]; simpl in Hlen; try lia.
  destruct (IH (q1 :: q')) as [r Hr]; [simpl; lia|].
  rewrite cumulative_cons2. cbn [tail]. rewrite Hr. cbn [mbind result_bind].
  destruct (neqb _ _); by eexists.
Qed.

Lemma cumulative_last z q r :
  cumulative z q = Ok r → z ≠ [] → r !! (length z - 1) = Some zero.
Proof.
  revert q r. induction z as [|z0 zs IH]; intros q r E Hne; [done|].
  destruct zs as [|z1 zs']; [by injection E as <-|].
  rewrite cumulative_cons2 in E.
  destruct (cumulative (z1 :: zs') (tail q)) as [r'|e] eqn:E'; [|done].
  cbn [mbind result_bind] in E.
  assert (r' !! (length (z1 :: zs') - 1) = Some zero) as Hl by eauto.
  assert (∃ c, r = c :: r') as [c ->].
  { destruct (neqb _ _); [|injection E as <-; eauto].
    destruct q as [|q0 [|q1 q']]; try done. injection E as <-; eauto. }
  simpl in *. by rewrite Nat.sub_0_r in Hl.
Qed.

(** A grid with a step that passes the guard needs both rates of it. *)
Lemma cumulative_short z q :
  no_zero_step z = true → 2 ≤ length z → length q < length z →
  cumulative z q = Raise IndexError.
Proof.
  revert q. induction z as [|z0 zs IH]; intros q Hnz H2 Hlen; [simpl in H2; lia|].
  destruct zs as [|z1 zs']; [simpl in H2; lia|].
  rewrite cumulative_cons2. cbn [no_zero_step] in Hnz.
  apply andb_true_iff in Hnz as [G Hnz]. rewrite G.
  destruct zs' as [|z2 zs''].
  { cbn [cumulative mbind result_bind].
    destruct q as [|q0 [|q1 q']]; try done. simpl in Hlen; lia. }
  rewrite (IH (tail q)); [done|done|simpl; lia|].
  destruct q; simpl in *; lia.
Qed.

(** *** The entries, from the last index backwards *)

Lemma cumulative_drop_Ok j z q r :
  cumulative z q = Ok r →
  cumulative (drop j z) (drop j q) = Ok (drop j r).
Proof.
  revert z q r. induction j as [|j IH]; intros z q r E; [by rewrite !drop_0|].
  destruct z as [|z0 zs]; [injection E as <-; by rewrite drop_nil|].
  destruct zs as [|z1 zs'].
  { injection E as <-. cbn [drop]. by rewrite !drop_nil. }
  rewrite cumulative_cons2 in E.
  destruct (cumulative (z1 :: zs') (tail q)) as [r'|e] eqn:E'; [|done].
  cbn [mbind result_bind] in E. apply (IH _ _ _) in E'.
  assert (∃ c, r = c :: r') as [c ->].
  { destruct (neqb _ _); [|injection E as <-; eauto].
    destruct q as [|q0 [|q1 q']]; try done. injection E as <-; eauto. }
  cbn [drop]. by rewrite <- drop_tail.
Qed.

Lemma sum_back_head (a : list A) : hd zero (accumulate_back a) = sum_back a.
Proof. by destruct a. Qed.

Lemma length_accumulate_back (a : list A) :
  length (accumulate_back a) = S (length a).
Proof. induction a; simpl; congruence. Qed.

Lemma accumulate_back_drop (a : list A) i :
  i ≤ length a → drop i (accumulate_back a) = accumulate_back (drop i a).
Proof.
  revert a. induction i as [|i IH]; intros a Hi; [by rewrite !drop_0|].
  destruct a; simpl in *; [lia|]. apply IH. lia.
Qed.

Lemma accumulate_back_lookup (a : list A) i :
  i ≤ length a → accumulate_back a !! i = Some (sum_back (drop i a)).
Proof.
  revert a. induction i as [|i IH]; intros [|a0 a] Hi; simpl in *; try done; [lia|].
  apply IH. lia.
Qed.

Lemma trapezoids_cons2 (z0 z1 q0 q1 : A) (zs qs : list A) :
  trapezoids (z0 :: z1 :: zs) (q0 :: q1 :: qs) =
    trapezoid z0 z1 q0 q1 :: trapezoids (z1 :: zs) (q1 :: qs).
Proof. done. Qed.

Lemma length_trapezoids z q :
  length z ≤ length q → length (trapezoids z q) = length z - 1.
Proof.
  revert q. induction z as [|z0 zs IH]; intros q Hlen; [done|].
  destruct zs as [|z1 zs']; [by destruct q|].
  destruct q as [|q0 [|q1 q']]; simpl in Hlen; try lia.
  rewrite trapezoids_cons2. cbn [length]. rewrite IH; simpl; lia.
Qed.

Lemma trapezoids_lookup z q k (zk zn qk qn : A) :
  z !! k = Some zk → z !! S k = Some zn →
  q !! k = Some qk → q !! S k = Some qn →
  trapezoids z q !! k = Some (trapezoid zk zn qk qn).
Proof.
  revert z q. induction k as [|k IH]; intros z q.
  - destruct z as [|z0 [|z1 zs]], q as [|q0 [|q1 qs]]; try done.
    by intros [= ->] [= ->] [= ->] [= ->].
  - destruct z as [|z0 [|z1 zs]], q as [|q0 [|q1 qs]]; try done.
    intros. rewrite trapezoids_cons2, lookup_cons. by apply IH.
Qed.

(** On a grid whose steps all pass the guard the result is the list of
    the backward partial sums of the trapezoid areas. *)
Lemma cumulative_accumulate_back z q :
  no_zero_step z = true → length z ≤ length q → z ≠ [] →
  cumulative z q = Ok (accumulate_back (trapezoids z q)).
Proof.
  revert q. induction z as [|z0 zs IH]; intros q Hnz Hlen Hne; [done|].
  destruct zs as [|z1 zs']; [by destruct q|].
  destruct q as [|q0 [|q1 q']]; simpl in Hlen; try lia.
  rewrite cumulative_cons2. cbn [no_zero_step] in Hnz.
  apply andb_true_iff in Hnz as [G Hnz]. rewrite G. cbn [tail].
  rewrite IH; [|done|simpl; lia|done]. cbn [mbind result_bind].
  by rewrite sum_back_head, trapezoids_cons2.
Qed.

(** The recurrence of the loop: one entry is the next one plus one area. *)
Lemma cumulative_recurrence z q r i (zi zn qi qn c : A) :
  no_zero_step z = true →
  cumulative z q = Ok r →
  z !! i = Some zi → z !! S i = Some zn →
  q !! i = Some qi → q !! S i = Some qn →
  r !! S i = Some c →
  r !! i = Some (add c (trapezoid zi zn qi qn)).
Proof.
  revert z q r. induction i as [|i IH]; intros z q r Hnz E.
  - destruct z as [|z0 [|z1 zs]], q as [|q0 [|q1 qs]]; try done.
    intros [= ->] [= ->] [= ->] [= ->] Hc.
    rewrite cumulative_cons2 in E. cbn [no_zero_step] in Hnz.
    apply andb_true_iff in Hnz as [G Hnz]. rewrite G in E. cbn [tail] in E.
    destruct (cumulative (zn :: zs) (qn :: qs)) as [r'|e]; [|done].
    injection E as <-. simpl in Hc. destruct r'; simplify_eq/=. done.
  - destruct z as [|z0 [|z1 zs]]; try done.
    intros Hzi Hzn Hqi Hqn Hc. rewrite cumulative_cons2 in E.
    cbn [no_zero_step] in Hnz. apply andb_true_iff in Hnz as [G Hnz].
    destruct (cumulative (z1 :: zs) (tail q)) as [r'|e] eqn:E'; [|done].
    cbn [mbind result_bind] in E.
    assert (∃ c', r = c' :: r') as [c' ->].
    { rewrite G in E. destruct q as [|q0 [|q1 q']]; try done.
      injection E as <-; eauto. }
    rewrite lookup_cons. apply (IH (z1 :: zs) (tail q)); try done.
    + by destruct q.
    + by destruct q.
Qed.

Lemma no_zero_step_cons2 (z0 z1 : A) (zs : list A) :
  no_zero_step (z0 :: z1 :: zs) = neqb (sub z1 z0) zero && no_zero_step (z1 :: zs).
Proof. done. Qed.

Lemma increasing_cons2 (z0 z1 : A) (zs : list A) :
  increasing (z0 :: z1 :: zs) = ltb z0 z1 && increasing (z1 :: zs).
Proof. done. Qed.

Lemma decreasing_cons2 (z0 z1 : A) (zs : list A) :
  decreasing (z0 :: z1 :: zs) = ltb z1 z0 && decreasing (z1 :: zs).
Proof. done. Qed.

Lemma no_zero_step_drop z j : no_zero_step z = true → no_zero_step (drop j z) = true.
Proof.
  revert z. induction j as [|j IH]; intros z Hnz; [by rewrite drop_0|].
  destruct z as [|z0 zs]; [done|]. cbn [drop]. apply IH.
  destruct zs; [done|]. cbn [no_zero_step] in Hnz.
  by apply andb_true_iff in Hnz as [_ ?].
Qed.

Lemma trapezoids_drop z q j :
  trapezoids (drop j z) (drop j q) = drop j (trapezoids z q).
Proof.
  revert z q. induction j as [|j IH]; intros z q; [by rewrite !drop_0|].
  destruct z as [|z0 [|z1 zs]].
  - by rewrite !drop_nil.
  - cbn [drop]. rewrite !drop_nil. by destruct q as [|? [|? ?]].
  - destruct q as [|q0 [|q1 qs]].
    + rewrite !drop_nil. cbn [trapezoids]. rewrite drop_nil.
      by destruct (drop _ _) as [|? [|? ?]].
    + cbn [drop trapezoids]. rewrite !drop_nil.
      by destruct (drop j (z1 :: zs)) as [|? [|? ?]].
    + rewrite trapezoids_cons2. cbn [drop]. apply IH.
Qed.

(** *** Flipped arrays *)

Lemma length_np_diff (x : list A) : length (np_diff x) = length x - 1.
Proof.
  induction x as [|x0 xs IH]; [done|]. destruct xs as [|x1 xs]; [done|].
  change (np_diff (x0 :: x1 :: xs)) with (sub x1 x0 :: np_diff (x1 :: xs)).
  cbn [length] in *. lia.
Qed.

Lemma trapezoids_snoc (l m : list A) (x y zl ql : A) :
  length l = length m → last l = Some zl → last m = Some ql →
  trapezoids (l ++ [x]) (m ++ [y]) = trapezoids l m ++ [trapezoid zl x ql y].
Proof.
  revert m. induction l as [|l0 l IH]; intros m Hlen Hl Hm; [done|].
  destruct m as [|m0 m]; [done|]. destruct l as [|l1 l], m as [|m1 m]; try done.
  { by simplify_eq/=. }
  rewrite last_cons_cons in Hl, Hm. cbn [app]. rewrite !trapezoids_cons2.
  cbn [app]. f_equal. apply (IH (m1 :: m)); [|done..]. simpl in *. lia.
Qed.

Lemma no_zero_step_snoc (l : list A) (x zl : A) :
  last l = Some zl →
  no_zero_step (l ++ [x]) = no_zero_step l && neqb (sub x zl) zero.
Proof.
  induction l as [|l0 l IH]; intros Hl; [done|].
  destruct l as [|l1 l].
  { simplify_eq/=. by rewrite andb_true_r. }
  rewrite last_cons_cons in Hl. cbn [app]. rewrite !no_zero_step_cons2.
  change ((l1 :: l) ++ [x]) with (l1 :: l ++ [x]) in IH.
  by rewrite IH, andb_assoc.
Qed.
End Generic.

(** ** Binary64: NaN *)

Module B64_facts.
Import B64.

Lemma add_nan_l (x : float) : add nan x = nan.
Proof. done. Qed.

Lemma add_nan_r (x : float) : add x nan = nan.
Proof. by destruct x. Qed.

Lemma mul_nan_l (x : float) : mul nan x = nan.
Proof. done. Qed.

Lemma mul_nan_r (x : float) : mul x nan = nan.
Proof. by destruct x. Qed.

(** A trapezoid that touches a NaN rate has a NaN area. *)
Lemma trapezoid_nan_l (z0 z1 q1 : float) : trapezoid z0 z1 nan q1 = nan.
Proof. unfold trapezoid. by rewrite add_nan_l, mul_nan_r, mul_nan_l. Qed.

Lemma trapezoid_nan_r (z0 z1 q0 : float) : trapezoid z0 z1 q0 nan = nan.
Proof. unfold trapezoid. by rewrite add_nan_r, mul_nan_r, mul_nan_l. Qed.

(** Below a NaN rate every entry of the result is NaN. *)
Lemma nan_spreads_down (z q r : list float) (k : nat) :
  length z = length q → no_zero_step z = true → k < length z →
  cumulative z (<[k:=nan]> q) = Ok r →
  ∀ m i, i + m = k → i < length z - 1 → r !! i = Some nan.
Proof.
  intros Hlen Hnz Hk E. pose proof (cumulative_length _ _ _ E) as Hr.
  induction m as [|m IH]; intros i Him Hi.
  - assert (i = k) as -> by lia.
    destruct (lookup_lt_is_Some_2 z k ltac:(lia)) as [zi Hzi].
    destruct (lookup_lt_is_Some_2 z (S k) ltac:(lia)) as [zn Hzn].
    destruct (lookup_lt_is_Some_2 (<[k:=nan]> q) (S k)) as [qn Hqn].
    { rewrite length_insert. lia. }
    destruct (lookup_lt_is_Some_2 r (S k) ltac:(lia)) as [c Hc].
    rewrite (cumulative_recurrence z (<[k:=nan]> q) r k zi zn nan qn c); try done.
    + by rewrite trapezoid_nan_l, add_nan_r.
    + apply list_lookup_insert_eq. lia.
  - destruct (lookup_lt_is_Some_2 z i ltac:(lia)) as [zi Hzi].
    destruct (lookup_lt_is_Some_2 z (S i) ltac:(lia)) as [zn Hzn].
    destruct (lookup_lt_is_Some_2 (<[k:=nan]> q) i) as [qi Hqi].
    { rewrite length_insert. lia. }
    destruct (decide (S i < length z - 1)) as [Hlt|Hge].
    + destruct (lookup_lt_is_Some_2 (<[k:=nan]> q) (S i)) as [qn Hqn].
      { rewrite length_insert. lia. }
      rewrite (cumulative_recurrence z (<[k:=nan]> q) r i zi zn qi qn nan); try done.
      apply IH; lia.
    + assert (S i = k) as HSi by lia.
      destruct (lookup_lt_is_Some_2 r (S i) ltac:(lia)) as [c Hc].
      rewrite (cumulative_recurrence z (<[k:=nan]> q) r i zi zn qi nan c); try done.
      * by rewrite trapezoid_nan_r, add_nan_r.
      * rewrite HSi. apply list_lookup_insert_eq. lia.
Qed.

(** Above index [k] the result does not read [q[k]]. *)
Lemma above_unchanged (z q r r0 : list float) (k : nat) (v : float) :
  cumulative z (<[k:=v]> q) = Ok r → cumulative z q = Ok r0 →
  ∀ i, k < i → r !! i = r0 !! i.
Proof.
  intros E E0 i Hi.
  apply (cumulative_drop_Ok i) in E. apply (cumulative_drop_Ok i) in E0.
  rewrite drop_insert_lt in E by lia. rewrite E in E0. injection E0 as E0.
  by rewrite <- (Nat.add_0_r i), <- !lookup_drop, E0.
Qed.
End B64_facts.

(** ** Exact arithmetic *)

Module Exact_facts.
Import Exact.
Local Open Scope Qc_scope.

Lemma half_plus_half : Q2Qc (1 # 2) + Q2Qc (1 # 2) = 1.
Proof. by apply Qc_is_canon. Qed.

Lemma inv_two : / Q2Qc 2 = Q2Qc (1 # 2).
Proof. by apply Qc_is_canon. Qed.

Lemma neqb_true (x y : Qc) : neqb x y = true ↔ x ≠ y.
Proof.
  to_Qc. unfold Qc_eq_bool. destruct (Qcanon.Qc_eq_dec x y); simpl; naive_solver.
Qed.

Lemma ltb_true (x y : Qc) : ltb x y = true ↔ x < y.
Proof.
  to_Qc. rewrite Qclt_alt. destruct (x ?= y); naive_solver.
Qed.

Lemma step_passes_guard (a b : Qc) : neqb (sub b a) zero = true ↔ a ≠ b.
Proof.
  rewrite neqb_true. to_Qc. split; intros Hne Heq; apply Hne.
  - subst. ring.
  - symmetry. rewrite <- (Qcplus_0_l a), <- Heq. ring.
Qed.

Lemma increasing_no_zero_step (z : list Qc) :
  increasing z = true → no_zero_step z = true.
Proof.
  induction z as [|z0 zs IH]; [done|]. destruct zs as [|z1 zs]; [done|].
  rewrite increasing_cons2, no_zero_step_cons2, !andb_true_iff.
  intros [Hlt Hinc]. split; [|by apply IH].
  apply step_passes_guard, Qclt_not_eq. by apply ltb_true.
Qed.

Lemma decreasing_no_zero_step (z : list Qc) :
  decreasing z = true → no_zero_step z = true.
Proof.
  induction z as [|z0 zs IH]; [done|]. destruct zs as [|z1 zs]; [done|].
  rewrite decreasing_cons2, no_zero_step_cons2, !andb_true_iff.
  intros [Hlt Hdec]. split; [|by apply IH].
  apply step_passes_guard. apply ltb_true, Qclt_not_eq in Hlt. congruence.
Qed.

(** The last altitude bounds an increasing grid from above. *)
Lemma increasing_le_last (z : list Qc) (i : nat) (zi zl : Qc) :
  increasing z = true → z !! i = Some zi → last z = Some zl → zi <= zl.
Proof.
  revert i zi. induction z as [|z0 zs IH]; intros i zi Hinc Hi Hl; [done|].
  destruct zs as [|z1 zs].
  { destruct i; [|done]. simplify_eq/=. apply Qcle_refl. }
  rewrite increasing_cons2 in Hinc. apply andb_true_iff in Hinc as [Hlt Hinc].
  apply ltb_true in Hlt. rewrite last_cons_cons in Hl.
  destruct i as [|i].
  - injection Hi as <-. apply Qcle_trans with z1; [by apply Qclt_le_weak|].
    by apply (IH 0%nat).
  - by apply (IH i).
Qed.

Lemma decreasing_ge_last (z : list Qc) (i : nat) (zi zl : Qc) :
  decreasing z = true → z !! i = Some zi → last z = Some zl → zl <= zi.
Proof.
  revert i zi. induction z as [|z0 zs IH]; intros i zi Hdec Hi Hl; [done|].
  destruct zs as [|z1 zs].
  { destruct i; [|done]. simplify_eq/=. apply Qcle_refl. }
  rewrite decreasing_cons2 in Hdec. apply andb_true_iff in Hdec as [Hlt Hdec].
  apply ltb_true in Hlt. rewrite last_cons_cons in Hl.
  destruct i as [|i].
  - injection Hi as <-. apply Qcle_trans with z1; [|by apply Qclt_le_weak].
    by apply (IH 0%nat).
  - by apply (IH i).
Qed.

(** On an increasing grid the top index is the last index, on a
    decreasing grid of two or more points it is index 0. *)
Lemma increasing_top_index (z : list Qc) :
  increasing z = true → top_index z = (length z - 1)%nat.
Proof.
  intros Hinc. unfold top_index.
  destruct z as [|z0 zs]; [done|]. cbn [head].
  assert (is_Some (last (z0 :: zs))) as [zl Hl] by (by apply last_is_Some).
  rewrite Hl.
  destruct (ltb z0 zl) eqn:Hlt; [done|].
  destruct zs as [|z1 zs]; [done|]. exfalso.
  rewrite increasing_cons2 in Hinc. apply andb_true_iff in Hinc as [H01 Hinc].
  apply ltb_true in H01. rewrite last_cons_cons in Hl.
  pose proof (increasing_le_last (z1 :: zs) 0%nat z1 zl Hinc eq_refl Hl) as Hle.
  assert (ltb z0 zl = true); [|congruence].
  apply ltb_true. by apply Qclt_le_trans with z1.
Qed.

Lemma decreasing_top_index (z : list Qc) :
  decreasing z = true → top_index z = 0%nat.
Proof.
  intros Hdec. unfold top_index.
  destruct z as [|z0 zs]; [done|]. cbn [head].
  assert (is_Some (last (z0 :: zs))) as [zl Hl] by (by apply last_is_Some).
  rewrite Hl.
  destruct (ltb z0 zl) eqn:Hlt; [|done]. exfalso.
  apply ltb_true in Hlt.
  pose proof (decreasing_ge_last (z0 :: zs) 0%nat z0 zl Hdec eq_refl Hl) as Hle.
  by apply Qclt_not_le in Hlt.
Qed.

(** *** Linear and constant profiles *)

Lemma sum_back_cons (a0 : Qc) (a : list Qc) :
  sum_back (a0 :: a) = sum_back a + a0.
Proof. done. Qed.

Lemma trapezoid_linear (m b z0 z1 : Qc) :
  trapezoid z0 z1 (linear_rate m b z0) (linear_rate m b z1) =
    antiderivative m b z1 - antiderivative m b z0.
Proof.
  unfold linear_rate, antiderivative. to_Qc.
  pose proof half_plus_half as Hh. set (h := Q2Qc (1 # 2)) in *.
  transitivity (h * m * z1 * z1 + b * z1 - (h * m * z0 * z0 + b * z0)
                + (h + h - 1) * b * (z1 - z0)); [ring|].
  rewrite Hh. ring.
Qed.

Lemma sum_back_linear (m b : Qc) (z : list Qc) (z0 zl : Qc) :
  head z = Some z0 → last z = Some zl →
  sum_back (trapezoids z (linear_rate m b <$> z)) =
    antiderivative m b zl - antiderivative m b z0.
Proof.
  revert z0. induction z as [|y0 zs IH]; intros z0 Hh Hl; [done|].
  injection Hh as ->. destruct zs as [|z1 zs].
  { injection Hl as ->. cbn. ring. }
  rewrite last_cons_cons in Hl. rewrite !fmap_cons, trapezoids_cons2, sum_back_cons.
  rewrite <- !fmap_cons, (IH z1), trapezoid_linear by done. ring.
Qed.

Lemma replicate_linear (C : Qc) (z : list Qc) :
  replicate (length z) C = linear_rate 0 C <$> z.
Proof.
  induction z as [|z0 zs IH]; [done|]. cbn [length replicate fmap list_fmap].
  rewrite IH. f_equal. unfold linear_rate. ring.
Qed.

Lemma antiderivative_constant (C x y : Qc) :
  antiderivative 0 C y - antiderivative 0 C x = C * (y - x).
Proof. unfold antiderivative. ring. Qed.

(** The entry at index [i] of the result for a linear profile. *)
Lemma cumulative_linear (m b : Qc) (z : list Qc) (i : nat) (zi zl : Qc) :
  no_zero_step z = true → z !! i = Some zi → last z = Some zl →
  ∃ r, cumulative z (linear_rate m b <$> z) = Ok r ∧
       r !! i = Some (antiderivative m b zl - antiderivative m b zi).
Proof.
  intros Hnz Hi Hl. eexists. split.
  { apply cumulative_accumulate_back; [done|by rewrite length_fmap|].
    by intros ->. }
  pose proof (lookup_lt_Some _ _ _ Hi) as Hlt.
  rewrite accumulate_back_lookup.
  2:{ rewrite length_trapezoids; rewrite ?length_fmap; lia. }
  rewrite <- trapezoids_drop, <- fmap_drop. f_equal.
  apply sum_back_linear.
  - by rewrite head_lookup, lookup_drop, Nat.add_0_r.
  - by rewrite last_drop_lt by lia.
Qed.

(** *** Non-negative profiles *)

Lemma mult_nonneg (x y : Qc) : 0 <= x → 0 <= y → 0 <= x * y.
Proof.
  intros Hx Hy. rewrite <- (Qcmult_0_l y). by apply Qcmult_le_compat_r.
Qed.

Lemma plus_nonneg (x y : Qc) : 0 <= x → 0 <= y → 0 <= x + y.
Proof.
  intros Hx Hy. rewrite <- (Qcplus_0_l 0). by apply Qcplus_le_compat.
Qed.

Lemma trapezoid_nonneg (z0 z1 q0 q1 : Qc) :
  z0 <= z1 → 0 <= q0 → 0 <= q1 → 0 <= trapezoid z0 z1 q0 q1.
Proof.
  intros Hz H0 H1. to_Qc. apply mult_nonneg; [apply mult_nonneg|].
  - done.
  - by apply plus_nonneg.
  - by apply Qcle_minus_iff in Hz.
Qed.

Lemma trapezoid_swap (z0 z1 q0 q1 : Qc) :
  trapezoid z1 z0 q1 q0 = - trapezoid z0 z1 q0 q1.
Proof. to_Qc. ring. Qed.

Lemma trapezoids_nonneg (z q : list Qc) :
  increasing z = true → Forall (Qcle 0) q → Forall (Qcle 0) (trapezoids z q).
Proof.
  revert q. induction z as [|z0 zs IH]; intros q Hinc Hq; [done|].
  destruct zs as [|z1 zs]; [by destruct q|].
  destruct q as [|q0 [|q1 qs]]; try done.
  rewrite increasing_cons2 in Hinc. apply andb_true_iff in Hinc as [Hlt Hinc].
  apply ltb_true, Qclt_le_weak in Hlt.
  apply Forall_cons in Hq as [H0 Hq]. pose proof Hq as [H1 _]%Forall_cons.
  rewrite trapezoids_cons2. apply Forall_cons. split; [|by apply IH].
  by apply trapezoid_nonneg.
Qed.

Lemma trapezoids_nonpos (z q : list Qc) :
  decreasing z = true → Forall (Qcle 0) q →
  Forall (λ a, 0 <= - a) (trapezoids z q).
Proof.
  revert q. induction z as [|z0 zs IH]; intros q Hdec Hq; [done|].
  destruct zs as [|z1 zs]; [by destruct q|].
  destruct q as [|q0 [|q1 qs]]; try done.
  rewrite decreasing_cons2 in Hdec. apply andb_true_iff in Hdec as [Hlt Hdec].
  apply ltb_true, Qclt_le_weak in Hlt.
  apply Forall_cons in Hq as [H0 Hq]. pose proof Hq as [H1 _]%Forall_cons.
  rewrite trapezoids_cons2. apply Forall_cons. split; [|by apply IH].
  rewrite <- trapezoid_swap. by apply trapezoid_nonneg.
Qed.

(** Sums of non-negative areas grow towards index 0. *)
Lemma sum_back_nonneg (a : list Qc) : Forall (Qcle 0) a → 0 <= sum_back a.
Proof.
  induction 1 as [|a0 a H0 Ha IH]; [done|].
  rewrite sum_back_cons. by apply plus_nonneg.
Qed.

Lemma sum_back_drop_mono (a : list Qc) (i j : nat) :
  Forall (Qcle 0) a → (i ≤ j)%nat →
  sum_back (drop j a) <= sum_back (drop i a).
Proof.
  intros Ha. revert i j. induction Ha as [|a0 a H0 Ha IH]; intros i j Hij.
  { rewrite !drop_nil. apply Qcle_refl. }
  destruct i as [|i], j as [|j]; try lia.
  - apply Qcle_refl.
  - cbn [drop]. rewrite sum_back_cons.
    apply Qcle_trans with (sum_back a).
    + rewrite <- (drop_0 a) at 2. apply IH. lia.
    + rewrite <- (Qcplus_0_r (sum_back a)) at 1.
      apply Qcplus_le_compat; [apply Qcle_refl|done].
  - cbn [drop]. apply IH. lia.
Qed.

Lemma sum_back_opp (a : list Qc) : sum_back (Qcopp <$> a) = - sum_back a.
Proof.
  induction a as [|a0 a IH]; [by apply Qc_is_canon|].
  rewrite fmap_cons, !sum_back_cons, IH. ring.
Qed.

(** *** Reversed storage *)

Lemma sum_back_snoc (a : list Qc) (x : Qc) : sum_back (a ++ [x]) = sum_back a + x.
Proof.
  induction a as [|a0 a IH]; [done|].
  cbn [app]. rewrite !sum_back_cons, IH. ring.
Qed.

Lemma accumulate_back_snoc (a : list Qc) (x : Qc) :
  accumulate_back (a ++ [x]) = ((λ y, y + x) <$> accumulate_back a) ++ [0].
Proof.
  induction a as [|a0 a IH]; [done|].
  cbn [app accumulate_back fmap list_fmap]. rewrite IH, sum_back_snoc.
  cbn [app]. f_equal. to_Qc. ring.
Qed.

Lemma accumulate_back_reverse_opp (a : list Qc) :
  accumulate_back (reverse (Qcopp <$> a)) =
    reverse ((λ y, y - sum_back a) <$> accumulate_back a).
Proof.
  induction a as [|a0 a IH].
  { cbn. f_equal; ring. }
  rewrite fmap_cons, reverse_cons, accumulate_back_snoc, IH.
  cbn [accumulate_back fmap list_fmap]. rewrite reverse_cons, <- fmap_reverse.
  rewrite <- list_fmap_compose, fmap_reverse. f_equal.
  - f_equal. apply list_fmap_ext. intros _ y _. unfold compose. cbv beta.
    rewrite sum_back_cons. ring.
  - f_equal. rewrite sum_back_cons. to_Qc. ring.
Qed.

Lemma trapezoids_reverse (z q : list Qc) :
  length z = length q →
  trapezoids (reverse z) (reverse q) = reverse (Qcopp <$> trapezoids z q).
Proof.
  revert q. induction z as [|z0 zs IH]; intros q Hlen.
  { by destruct q. }
  destruct q as [|q0 qs]; [done|]. injection Hlen as Hlen.
  destruct zs as [|z1 zs], qs as [|q1 qs]; try done.
  rewrite (reverse_cons _ z0), (reverse_cons _ q0).
  rewrite (trapezoids_snoc _ _ _ _ z1 q1).
  - rewrite IH by done. rewrite trapezoids_cons2, fmap_cons, (reverse_cons _ (- _)).
    by rewrite trapezoid_swap.
  - by rewrite !length_reverse.
  - by rewrite last_reverse.
  - by rewrite last_reverse.
Qed.

Lemma neqb_sub_swap (x y : Qc) : neqb (sub x y) zero = neqb (sub y x) zero.
Proof.
  destruct (neqb (sub y x) zero) eqn:E.
  - apply step_passes_guard. apply step_passes_guard in E. congruence.
  - apply not_true_is_false. intros E'. apply step_passes_guard in E'.
    apply not_true_iff_false in E. apply E, step_passes_guard. congruence.
Qed.

Lemma no_zero_step_reverse (z : list Qc) :
  no_zero_step z = true → no_zero_step (reverse z) = true.
Proof.
  induction z as [|z0 zs IH]; [done|]. destruct zs as [|z1 zs]; [done|].
  rewrite no_zero_step_cons2, andb_true_iff. intros [G Hnz].
  rewrite reverse_cons, (no_zero_step_snoc _ _ z1) by by rewrite last_reverse.
  rewrite IH by done. by rewrite neqb_sub_swap.
Qed.

(** *** The flip / cumulative_trapezoid / flip formulation *)

(** The terms SciPy sums are the trapezoid areas of the loop. *)
Lemma cumulative_trapezoid_terms (x y : list Qc) :
  length x = length y →
  zip_with (λ dk s, div (mul dk s) two) (np_diff x)
           (zip_with add (drop 1 y) (removelast y)) = trapezoids x y.
Proof.
  revert y. induction x as [|x0 xs IH]; intros y Hlen; [done|].
  destruct y as [|y0 ys]; [done|]. injection Hlen as Hlen.
  destruct xs as [|x1 xs], ys as [|y1 ys]; try done.
  change (np_diff (x0 :: x1 :: xs)) with (sub x1 x0 :: np_diff (x1 :: xs)).
  change (removelast (y0 :: y1 :: ys)) with (y0 :: removelast (y1 :: ys)).
  cbn [drop zip_with]. rewrite trapezoids_cons2.
  specialize (IH (y1 :: ys) Hlen). cbn [drop] in IH. rewrite drop_0 in IH.
  rewrite IH. f_equal.
  to_Qc. unfold Qcdiv. rewrite inv_two. ring.
Qed.

Lemma np_cumsum_from_zero (t : list Qc) :
  (zero : Qc) :: np_cumsum t = 0 :: cumsum_from 0 t.
Proof. destruct t as [|t0 ts]; [done|]. cbn. by rewrite !Qcplus_0_l. Qed.

Lemma cumsum_flipped (a : list Qc) (acc : Qc) :
  Qcopp <$> reverse (acc :: cumsum_from acc (reverse (Qcopp <$> a))) =
    (λ y, y - acc) <$> accumulate_back a.
Proof.
  revert acc. induction a as [|al a IH] using rev_ind; intros acc.
  { cbn. f_equal. ring. }
  rewrite fmap_app, reverse_app.
  rewrite (fmap_cons Qcopp al), fmap_nil, reverse_singleton. cbn [app cumsum_from].
  rewrite (reverse_cons _ acc), fmap_app, IH, accumulate_back_snoc, fmap_app.
  rewrite <- list_fmap_compose. f_equal.
  - apply list_fmap_ext. intros _ y _. cbn. ring.
  - cbn. f_equal. ring.
Qed.

(** [integrate_from_top_v1] computes the backward partial sums of the
    trapezoid areas, with no guard on the step. *)
Lemma integrate_from_top_v1_accumulate_back (z q : list Qc) :
  length z = length q → z ≠ [] →
  integrate_from_top_v1 z q = Ok (accumulate_back (trapezoids z q)).
Proof.
  intros Hlen Hne. unfold integrate_from_top_v1, cumulative_trapezoid.
  destruct (decide (length (reverse q) = 0%nat)) as [Hq|_].
  { rewrite length_reverse in Hq. destruct z; [done|]. simpl in *. lia. }
  destruct (decide _) as [_|Hd].
  2:{ rewrite length_np_diff, !length_reverse in Hd. lia. }
  cbn [mbind result_bind]. f_equal.
  rewrite cumulative_trapezoid_terms by by rewrite !length_reverse.
  rewrite trapezoids_reverse, np_cumsum_from_zero by done.
  change (neg <$> ?l) with (Qcopp <$> l). rewrite cumsum_flipped.
  rewrite <- (list_fmap_id (accumulate_back _)) at 2.
  apply list_fmap_ext. intros _ y _. cbn. ring.
Qed.
End Exact_facts.

(** * The convergence test in real arithmetic *)

Module Real_facts.
Local Open Scope R_scope.

























Section Uniform.
Context (A H dz : R).
Hypothesis HA : 0 < A.
Hypothesis HH : 0 < H.
Hypothesis Hdz : 0 < dz.

Local Abbreviation point := (λ k : nat, 0 + INR k * dz).
Local Abbreviation rate := (λ zi : R, A * exp (- zi / H)).
Local Abbreviation e := (λ k : nat, exp (- (0 + INR k * dz) / H)).
Local Abbreviation x := (dz / (2 * H)).
Local Abbreviation c := (x * cosh x / sinh x).










End Uniform.



End Real_facts.

(** * The claims *)

(** ** Results at the ends of the grid *)

(** C1, amended.  For every altitude grid and rate profile of equal length
    [n >= 1], [integrate_from_top] returns normally and its result is exactly
    [0] at the last index [n-1], in every arithmetic and for either storage
    order.  The last index is the top index when [altitude[0] < altitude[-1]]
    (or [n = 1]); only then is the value at the top index known to be [0]. *)
Theorem integrate_from_top_zero_at_last_index {A : Type} `{Scalar A}
    (z q : list A) :
  length z = length q → 1 ≤ length z →
  ∃ r, integrate_from_top z q = Ok r ∧ length r = length z ∧
       r !! (length z - 1) = Some zero ∧
       ∀ z0 zl, head z = Some z0 → last z = Some zl →
                ltb z0 zl = true ∨ length z = 1 →
                r !! top_index z = Some zero.
Proof.
  intros Hlen Hn. rewrite integrate_from_top_cumulative.
  destruct (cumulative_Ok z q) as [r Hr]; [lia|].
  assert (r !! (length z - 1) = Some zero) as Hlast.
  { apply (cumulative_last z q); [done|]. intros ->. simpl in Hn. lia. }
  exists r. repeat split; [done|by eapply cumulative_length|done|].
  intros z0 zl Hh Hl Hcase. unfold top_index. rewrite Hh, Hl.
  destruct Hcase as [-> | H1]; [done|].
  destruct (ltb z0 zl); [done|]. by rewrite <- H1, Nat.sub_diag in Hlast.
Qed.

Lemma integrate_from_top_zero_at_last_index_witness :
  length (B64.of_Z <$> [0; 10; 20; 30]%Z) = length (B64.of_Z <$> [1; 1; 1; 1]%Z) ∧
  ∃ r, integrate_from_top (B64.of_Z <$> [0; 10; 20; 30]%Z)
                          (B64.of_Z <$> [1; 1; 1; 1]%Z) = Ok r ∧
       length r = length (B64.of_Z <$> [0; 10; 20; 30]%Z) ∧
       r !! (length (B64.of_Z <$> [0; 10; 20; 30]%Z) - 1) = Some zero ∧
       ∀ z0 zl, head (B64.of_Z <$> [0; 10; 20; 30]%Z) = Some z0 →
                last (B64.of_Z <$> [0; 10; 20; 30]%Z) = Some zl →
                ltb z0 zl = true ∨ length (B64.of_Z <$> [0; 10; 20; 30]%Z) = 1 →
                r !! top_index (B64.of_Z <$> [0; 10; 20; 30]%Z) = Some zero.
Proof.
  split; [reflexivity|].
  apply (integrate_from_top_zero_at_last_index
           (B64.of_Z <$> [0; 10; 20; 30]%Z) (B64.of_Z <$> [1; 1; 1; 1]%Z)).
  - reflexivity.
  - simpl. lia.
Defined.

(** C1 as stated fails on a grid stored in decreasing order: for
    [altitude = [10, 0]] and [rate = [1, 1]] the top index is 0 and the
    result there is [-10]. *)
Lemma zero_at_top_fails_on_decreasing_grid :
  length (B64.of_Z <$> [10; 0]%Z) = length (B64.of_Z <$> [1; 1]%Z) ∧
  decreasing (B64.of_Z <$> [10; 0]%Z) = true ∧
  top_index (B64.of_Z <$> [10; 0]%Z) = 0 ∧
  integrate_from_top (B64.of_Z <$> [10; 0]%Z) (B64.of_Z <$> [1; 1]%Z)
    = Ok (B64.of_Z <$> [-10; 0]%Z) ∧
  (B64.of_Z <$> [-10; 0]%Z) !! top_index (B64.of_Z <$> [10; 0]%Z)
    ≠ Some (zero : B64.float) ∧
  neqb (B64.of_Z (-10)) zero = true.
Proof. vm_compute. repeat split; done. Qed.

(** C8.  A single-element pair gives the one-element result [[0]], empty
    inputs give the empty result; neither raises. *)
Theorem integrate_from_top_degenerate {A : Type} `{Scalar A} :
  (∀ z0 q0 : A, integrate_from_top [z0] [q0] = Ok [zero]) ∧
  integrate_from_top [] [] = Ok ([] : list A).
Proof. done. Qed.

(** ** Exceptions *)

(** C5, amended.  [integrate_from_top] has no length check and never raises
    ShapeMismatch.  Whenever the rate array is at least as long as the
    altitude array (equal lengths in particular, whatever the values, NaN and
    negative included) it returns a result of the length of the altitude
    array.  The only exception it can raise is the IndexError of a missing
    rate, which needs a rate array shorter than the altitude array, and it is
    raised on every such input whose grid has two or more points and steps
    that all pass the guard; an exception leaves no partial result. *)
Theorem integrate_from_top_only_index_error {A : Type} `{Scalar A}
    (z q : list A) :
  (length z ≤ length q →
     ∃ r, integrate_from_top z q = Ok r ∧ length r = length z) ∧
  (∀ e, integrate_from_top z q = Raise e →
     e = IndexError ∧ length q < length z) ∧
  (length q < length z → 2 ≤ length z → no_zero_step z = true →
     integrate_from_top z q = Raise IndexError).
Proof.
  rewrite integrate_from_top_cumulative. repeat split.
  - intros Hlen. destruct (cumulative_Ok z q Hlen) as [r Hr].
    exists r. split; [done|]. by eapply cumulative_length.
  - by eapply cumulative_Raise.
  - destruct (decide (length z ≤ length q)) as [Hle|]; [|lia].
    destruct (cumulative_Ok z q Hle) as [r Hr]. congruence.
  - intros. by apply cumulative_short.
Qed.

Lemma integrate_from_top_only_index_error_witness :
  (length (B64.of_Z <$> [0; 1]%Z) ≤ length [B64.nan; B64.of_Z (-1)] →
     ∃ r, integrate_from_top (B64.of_Z <$> [0; 1]%Z) [B64.nan; B64.of_Z (-1)] = Ok r ∧
          length r = length (B64.of_Z <$> [0; 1]%Z)) ∧
  (∀ e, integrate_from_top (B64.of_Z <$> [0; 1]%Z) [B64.nan; B64.of_Z (-1)] = Raise e →
     e = IndexError ∧
     length [B64.nan; B64.of_Z (-1)] < length (B64.of_Z <$> [0; 1]%Z)) ∧
  (length [B64.nan; B64.of_Z (-1)] < length (B64.of_Z <$> [0; 1]%Z) →
   2 ≤ length (B64.of_Z <$> [0; 1]%Z) →
   no_zero_step (B64.of_Z <$> [0; 1]%Z) = true →
   integrate_from_top (B64.of_Z <$> [0; 1]%Z) [B64.nan; B64.of_Z (-1)]
     = Raise IndexError).
Proof.
  exact (integrate_from_top_only_index_error
           (B64.of_Z <$> [0; 1]%Z) [B64.nan; B64.of_Z (-1)]).
Defined.

(** C5 as stated fails: a rate array longer than the altitude array is
    accepted without any exception (the extra rate is never read), and so is
    a shorter one on a one-point grid. *)
Lemma longer_rate_is_accepted :
  length (B64.of_Z <$> [0; 1]%Z) ≠ length (B64.of_Z <$> [1; 1; 1]%Z) ∧
  integrate_from_top (B64.of_Z <$> [0; 1]%Z) (B64.of_Z <$> [1; 1; 1]%Z)
    = Ok (B64.of_Z <$> [1; 0]%Z) ∧
  length (B64.of_Z <$> [5]%Z) ≠ length ([] : list B64.float) ∧
  integrate_from_top (B64.of_Z <$> [5]%Z) [] = Ok [zero : B64.float].
Proof. vm_compute. repeat split; done. Qed.

(** ** The cumulative sum *)

(** C2, amended.  For every equal-length pair whose grid steps all pass the
    guard [dz_local != 0] (every strictly monotonic grid does, in exact
    arithmetic) and every index [i], [result[i]] is the sum of the trapezoid
    areas [0.5 * (rate[k] + rate[k+1]) * (altitude[k+1] - altitude[k])] for
    [k = n-2] down to [i], accumulated from the last index towards [i], each
    area with its own sign.  The last index is the top index on grids stored
    in increasing order only.  For [altitude = [0,1,2,5,10]] and
    [rate = [10,10,10,10,10]] the result is [[100,90,80,50,0]], in binary64
    and in exact arithmetic. *)
Theorem integrate_from_top_sums_from_last_index :
  (∀ (A : Type) (H : Scalar A) (z q : list A),
     length z = length q → no_zero_step z = true → 1 ≤ length z →
     ∃ r, integrate_from_top z q = Ok r ∧
          (∀ i, i < length z →
                r !! i = Some (sum_back (drop i (trapezoids z q)))) ∧
          (∀ k zk zn qk qn,
             z !! k = Some zk → z !! S k = Some zn →
             q !! k = Some qk → q !! S k = Some qn →
             trapezoids z q !! k = Some (mul (mul half (add qk qn)) (sub zn zk)))) ∧
  (∀ z : list Qc,
     increasing z = true ∨ decreasing z = true → no_zero_step z = true) ∧
  integrate_from_top (B64.of_Z <$> [0; 1; 2; 5; 10]%Z)
                     (B64.of_Z <$> [10; 10; 10; 10; 10]%Z)
    = Ok (B64.of_Z <$> [100; 90; 80; 50; 0]%Z) ∧
  integrate_from_top (Exact.of_Z <$> [0; 1; 2; 5; 10]%Z)
                     (Exact.of_Z <$> [10; 10; 10; 10; 10]%Z)
    = Ok (Exact.of_Z <$> [100; 90; 80; 50; 0]%Z).
Proof.
  split; [|split; [|split; by vm_compute]].
  - intros A H z q Hlen Hnz Hn. rewrite integrate_from_top_cumulative.
    rewrite cumulative_accumulate_back; [|done|lia|].
    2:{ intros ->. simpl in Hn. lia. }
    eexists. split; [done|]. split.
    + intros i Hi. apply accumulate_back_lookup.
      rewrite length_trapezoids; lia.
    + intros. by apply trapezoids_lookup.
  - intros z [Hz|Hz].
    + by apply Exact_facts.increasing_no_zero_step.
    + by apply Exact_facts.decreasing_no_zero_step.
Qed.

Lemma integrate_from_top_sums_from_last_index_witness :
  length (B64.of_Z <$> [0; 10; 20; 30]%Z) = length (B64.of_Z <$> [1; 1; 1; 1]%Z) ∧
  no_zero_step (B64.of_Z <$> [0; 10; 20; 30]%Z) = true ∧
  ∃ r, integrate_from_top (B64.of_Z <$> [0; 10; 20; 30]%Z)
                          (B64.of_Z <$> [1; 1; 1; 1]%Z) = Ok r ∧
       (∀ i, i < length (B64.of_Z <$> [0; 10; 20; 30]%Z) →
             r !! i = Some (sum_back (drop i
               (trapezoids (B64.of_Z <$> [0; 10; 20; 30]%Z)
                           (B64.of_Z <$> [1; 1; 1; 1]%Z))))) ∧
       (∀ k zk zn qk qn,
          (B64.of_Z <$> [0; 10; 20; 30]%Z) !! k = Some zk →
          (B64.of_Z <$> [0; 10; 20; 30]%Z) !! S k = Some zn →
          (B64.of_Z <$> [1; 1; 1; 1]%Z) !! k = Some qk →
          (B64.of_Z <$> [1; 1; 1; 1]%Z) !! S k = Some qn →
          trapezoids (B64.of_Z <$> [0; 10; 20; 30]%Z)
                     (B64.of_Z <$> [1; 1; 1; 1]%Z) !! k
            = Some (mul (mul half (add qk qn)) (sub zn zk))).
Proof.
  split; [reflexivity|]. split; [reflexivity|].
  apply (proj1 integrate_from_top_sums_from_last_index B64.float B64.scalar
           (B64.of_Z <$> [0; 10; 20; 30]%Z) (B64.of_Z <$> [1; 1; 1; 1]%Z)).
  - reflexivity.
  - reflexivity.
  - simpl. lia.
Defined.

(** C2 as stated fails on a grid stored in decreasing order: for
    [altitude = [10, 5, 0]] and [rate = [1, 1, 3]] the top index is 0, the
    path from the top to index 1 is the one trapezoid of area [-5], and the
    result at index 1 is [-10], the area of the other trapezoid. *)
Lemma path_from_top_fails_on_decreasing_grid :
  length (B64.of_Z <$> [10; 5; 0]%Z) = length (B64.of_Z <$> [1; 1; 3]%Z) ∧
  decreasing (B64.of_Z <$> [10; 5; 0]%Z) = true ∧
  top_index (B64.of_Z <$> [10; 5; 0]%Z) = 0 ∧
  integrate_from_top (B64.of_Z <$> [10; 5; 0]%Z) (B64.of_Z <$> [1; 1; 3]%Z)
    = Ok (B64.of_Z <$> [-15; -10; 0]%Z) ∧
  spec_cumulative (B64.of_Z <$> [10; 5; 0]%Z) (B64.of_Z <$> [1; 1; 3]%Z) 1
    = B64.of_Z (-5) ∧
  (B64.of_Z <$> [-15; -10; 0]%Z) !! 1 ≠ Some (B64.of_Z (-5)) ∧
  (B64.of_Z <$> [-15; -10; 0]%Z) !! 1 ≠ Some (neg (B64.of_Z (-5))).
Proof. vm_compute. repeat split; done. Qed.

(** ** NaN *)

(** C4, amended.  For every equal-length pair whose grid steps all pass the
    guard and a NaN injected at index [k] of the rate, [integrate_from_top]
    raises nothing; the result is NaN at every index [i <= k] other than the
    last index [n-1] (the indices whose accumulation from the last index uses
    a trapezoid touching [k]), it is 0 at the last index, and at every index
    [i > k] it is the value computed without the NaN.  The accumulation
    starts at the last index, the top index on grids stored in increasing
    order only. *)
Theorem nan_propagates_below_injection (z q : list B64.float) (k : nat) :
  length z = length q → no_zero_step z = true → k < length z →
  ∃ r r0,
    integrate_from_top z (<[k:=B64.nan]> q) = Ok r ∧
    integrate_from_top z q = Ok r0 ∧
    (∀ i, i ≤ k → i < length z - 1 → r !! i = Some B64.nan) ∧
    r !! (length z - 1) = Some zero ∧
    (∀ i, k < i → r !! i = r0 !! i).
Proof.
  intros Hlen Hnz Hk. rewrite !integrate_from_top_cumulative.
  destruct (cumulative_Ok z (<[k:=B64.nan]> q)) as [r Hr].
  { rewrite length_insert. lia. }
  destruct (cumulative_Ok z q) as [r0 Hr0]; [lia|].
  exists r, r0. repeat split; try done.
  - intros i Hik Hi.
    apply (B64_facts.nan_spreads_down z q r k Hlen Hnz Hk Hr (k - i) i); lia.
  - apply (cumulative_last z (<[k:=B64.nan]> q)); [done|].
    intros ->. simpl in Hk. lia.
  - by apply (B64_facts.above_unchanged z q r r0 k B64.nan).
Qed.

Lemma nan_propagates_below_injection_witness :
  length (B64.of_Z <$> [100; 200; 300; 400; 500]%Z)
    = length (B64.of_Z <$> [10000; 1000; 500; 100; 10]%Z) ∧
  no_zero_step (B64.of_Z <$> [100; 200; 300; 400; 500]%Z) = true ∧
  ∃ r r0,
    integrate_from_top (B64.of_Z <$> [100; 200; 300; 400; 500]%Z)
      (<[2:=B64.nan]> (B64.of_Z <$> [10000; 1000; 500; 100; 10]%Z)) = Ok r ∧
    integrate_from_top (B64.of_Z <$> [100; 200; 300; 400; 500]%Z)
      (B64.of_Z <$> [10000; 1000; 500; 100; 10]%Z) = Ok r0 ∧
    (∀ i, i ≤ 2 → i < length (B64.of_Z <$> [100; 200; 300; 400; 500]%Z) - 1 →
          r !! i = Some B64.nan) ∧
    r !! (length (B64.of_Z <$> [100; 200; 300; 400; 500]%Z) - 1) = Some zero ∧
    (∀ i, 2 < i → r !! i = r0 !! i).
Proof.
  split; [reflexivity|]. split; [reflexivity|].
  apply (nan_propagates_below_injection
           (B64.of_Z <$> [100; 200; 300; 400; 500]%Z)
           (B64.of_Z <$> [10000; 1000; 500; 100; 10]%Z) 2).
  - reflexivity.
  - reflexivity.
  - simpl. lia.
Defined.

(** C4 as stated fails on a grid stored in decreasing order: for
    [altitude = [3, 2, 1, 0]] and [rate = [1, nan, 1, 1]] the top index is 0;
    index 0 is on the top side of the NaN and its path from the top is empty,
    yet its result is NaN, while index 2, whose path from the top crosses the
    NaN, is the finite [-1]. *)
Lemma nan_on_top_side_of_decreasing_grid :
  length (B64.of_Z <$> [3; 2; 1; 0]%Z)
    = length [B64.of_Z 1; B64.nan; B64.of_Z 1; B64.of_Z 1] ∧
  decreasing (B64.of_Z <$> [3; 2; 1; 0]%Z) = true ∧
  top_index (B64.of_Z <$> [3; 2; 1; 0]%Z) = 0 ∧
  integrate_from_top (B64.of_Z <$> [3; 2; 1; 0]%Z)
                     [B64.of_Z 1; B64.nan; B64.of_Z 1; B64.of_Z 1]
    = Ok [B64.nan; B64.nan; B64.of_Z (-1); zero] ∧
  spec_path_touches (B64.of_Z <$> [3; 2; 1; 0]%Z) 1 0 = false ∧
  B64.is_nan B64.nan = true ∧
  spec_path_touches (B64.of_Z <$> [3; 2; 1; 0]%Z) 1 2 = true ∧
  B64.is_nan (B64.of_Z (-1)) = false ∧
  B64.is_finite (B64.of_Z (-1)) = true.
Proof. vm_compute. repeat split; done. Qed.

(** ** Storage order *)

Section Exact_claims.
Import Exact Exact_facts.
Local Open Scope Qc_scope.

Lemma monotonic_no_zero_step (z : list Qc) :
  increasing z = true ∨ decreasing z = true → no_zero_step z = true.
Proof.
  intros [Hz|Hz];
    [by apply increasing_no_zero_step|by apply decreasing_no_zero_step].
Qed.

Lemma integrate_from_top_accumulate_back (z q : list Qc) :
  length z = length q → no_zero_step z = true → z ≠ [] →
  integrate_from_top z q = Ok (accumulate_back (trapezoids z q)).
Proof.
  intros Hlen Hnz Hne. rewrite integrate_from_top_cumulative.
  apply cumulative_accumulate_back; [done|lia|done].
Qed.
End Exact_claims.

(** C3, amended.  [integrate_from_top] never compares [altitude[0]] with
    [altitude[-1]]: it anchors the zero at the last stored index.  For every
    strictly monotonic grid and aligned rate profile, in exact arithmetic,
    the result on the reversed pair is the reversal of the original result
    with the original total [result[0]] subtracted from every entry: the
    profile anchored at the other end of the grid, not the same profile. *)
Theorem integrate_from_top_reversed_storage (z q : list Qc) :
  length z = length q →
  increasing z = true ∨ decreasing z = true →
  1 ≤ length z →
  ∃ r total,
    integrate_from_top z q = Ok r ∧
    r !! 0 = Some total ∧
    r !! (length z - 1) = Some (zero : Qc) ∧
    integrate_from_top (reverse z) (reverse q)
      = Ok (reverse ((λ y, y - total)%Qc <$> r)).
Proof.
  intros Hlen Hmono Hn.
  assert (z ≠ []) as Hne by (intros ->; simpl in Hn; lia).
  pose proof (monotonic_no_zero_step z Hmono) as Hnz.
  exists (accumulate_back (trapezoids z q)), (sum_back (trapezoids z q)).
  split; [by apply integrate_from_top_accumulate_back|].
  split; [by destruct (trapezoids z q)|].
  split.
  { pose proof (integrate_from_top_accumulate_back z q Hlen Hnz Hne) as E.
    rewrite integrate_from_top_cumulative in E.
    by apply (cumulative_last z q). }
  rewrite integrate_from_top_accumulate_back.
  - by rewrite Exact_facts.trapezoids_reverse,
       Exact_facts.accumulate_back_reverse_opp.
  - by rewrite !length_reverse.
  - by apply Exact_facts.no_zero_step_reverse.
  - intros E. apply (f_equal length) in E. rewrite length_reverse in E.
    simpl in E. lia.
Qed.

Lemma integrate_from_top_reversed_storage_witness :
  length (Exact.of_Z <$> [0; 10; 20; 30]%Z) = length (Exact.of_Z <$> [1; 2; 3; 4]%Z) ∧
  increasing (Exact.of_Z <$> [0; 10; 20; 30]%Z) = true ∧
  ∃ r total,
    integrate_from_top (Exact.of_Z <$> [0; 10; 20; 30]%Z)
                       (Exact.of_Z <$> [1; 2; 3; 4]%Z) = Ok r ∧
    r !! 0 = Some total ∧
    r !! (length (Exact.of_Z <$> [0; 10; 20; 30]%Z) - 1) = Some (zero : Qc) ∧
    integrate_from_top (reverse (Exact.of_Z <$> [0; 10; 20; 30]%Z))
                       (reverse (Exact.of_Z <$> [1; 2; 3; 4]%Z))
      = Ok (reverse ((λ y, y - total)%Qc <$> r)).
Proof.
  split; [reflexivity|]. split; [reflexivity|].
  apply (integrate_from_top_reversed_storage
           (Exact.of_Z <$> [0; 10; 20; 30]%Z) (Exact.of_Z <$> [1; 2; 3; 4]%Z)).
  - reflexivity.
  - left. reflexivity.
  - simpl. lia.
Defined.

(** C3 as stated fails: for [altitude = [0, 10]] and [rate = [1, 1]] the
    result is [[10, 0]], its reversal is [[0, 10]], and the result on the
    reversed pair is [[-10, 0]]; so it is in binary64 and in exact
    arithmetic. *)
Lemma reversed_pair_is_not_the_reversed_result :
  increasing (B64.of_Z <$> [0; 10]%Z) = true ∧
  integrate_from_top (B64.of_Z <$> [0; 10]%Z) (B64.of_Z <$> [1; 1]%Z)
    = Ok (B64.of_Z <$> [10; 0]%Z) ∧
  integrate_from_top (reverse (B64.of_Z <$> [0; 10]%Z))
                     (reverse (B64.of_Z <$> [1; 1]%Z))
    = Ok (B64.of_Z <$> [-10; 0]%Z) ∧
  B64.of_Z <$> [-10; 0]%Z ≠ reverse (B64.of_Z <$> [10; 0]%Z) ∧
  integrate_from_top (Exact.of_Z <$> [0; 10]%Z) (Exact.of_Z <$> [1; 1]%Z)
    = Ok (Exact.of_Z <$> [10; 0]%Z) ∧
  integrate_from_top (reverse (Exact.of_Z <$> [0; 10]%Z))
                     (reverse (Exact.of_Z <$> [1; 1]%Z))
    = Ok (Exact.of_Z <$> [-10; 0]%Z) ∧
  Exact.of_Z <$> [-10; 0]%Z ≠ reverse (Exact.of_Z <$> [10; 0]%Z).
Proof. vm_compute. repeat split; done. Qed.

(** ** Exactness and monotonicity, in exact arithmetic *)

Section Exact_magnitudes.
Import Exact Exact_facts.
Local Open Scope Qc_scope.

Lemma abs_sum_back_nonneg (a : list Qc) (i : nat) :
  Forall (Qcle 0) a → Qcabs (sum_back (drop i a)) = sum_back (drop i a).
Proof. intros Ha. by apply Qcabs_pos, sum_back_nonneg, Forall_drop. Qed.

Lemma opp_nonneg (a : list Qc) :
  Forall (λ x, 0 <= - x) a → Forall (Qcle 0) (Qcopp <$> a).
Proof. intros Ha. by apply Forall_fmap. Qed.

Lemma abs_sum_back_nonpos (a : list Qc) (i : nat) :
  Forall (λ x, 0 <= - x) a →
  Qcabs (sum_back (drop i a)) = sum_back (drop i (Qcopp <$> a)).
Proof.
  intros Ha. rewrite <- Qcabs_opp, <- sum_back_opp, fmap_drop.
  by apply abs_sum_back_nonneg, opp_nonneg.
Qed.

(** The magnitudes of the backward partial sums grow towards index 0 when
    the areas all have one sign. *)
Lemma abs_sum_back_mono (z q : list Qc) (i j : nat) :
  increasing z = true ∨ decreasing z = true → Forall (Qcle 0) q → (j ≤ i)%nat →
  Qcabs (sum_back (drop i (trapezoids z q)))
    <= Qcabs (sum_back (drop j (trapezoids z q))).
Proof.
  intros [Hz|Hz] Hq Hji.
  - pose proof (trapezoids_nonneg z q Hz Hq) as Ha.
    rewrite !abs_sum_back_nonneg by done. by apply sum_back_drop_mono.
  - pose proof (trapezoids_nonpos z q Hz Hq) as Ha.
    rewrite !abs_sum_back_nonpos by done.
    by apply sum_back_drop_mono; [apply opp_nonneg|].
Qed.
End Exact_magnitudes.

(** C6, amended.  In exact arithmetic, for every strictly monotonic grid and
    every index [i]: for the constant rate [C] the result is
    [C * (altitude[n-1] - altitude[i])], and for the linear rate [m*z + b] it
    is [F(altitude[n-1]) - F(altitude[i])] with the antiderivative
    [F(x) = 0.5*m*x^2 + b*x], whatever the spacing of the grid.  On a grid
    stored in increasing order the last index is the top index and the
    constant case reads [C * |altitude[top_index] - altitude[i]|]. *)
Theorem exact_for_constant_and_linear (z : list Qc) (C m b : Qc) (i : nat)
    (zi zl : Qc) :
  increasing z = true ∨ decreasing z = true →
  z !! i = Some zi → last z = Some zl →
  (∃ r, integrate_from_top z (replicate (length z) C) = Ok r ∧
        r !! i = Some (C * (zl - zi))%Qc) ∧
  (∃ r, integrate_from_top z (Exact.linear_rate m b <$> z) = Ok r ∧
        r !! i = Some (Exact.antiderivative m b zl - Exact.antiderivative m b zi)%Qc) ∧
  (increasing z = true →
     z !! top_index z = Some zl ∧
     (C * (zl - zi) = C * Qcabs (zl - zi))%Qc).
Proof.
  intros Hmono Hi Hl. pose proof (monotonic_no_zero_step z Hmono) as Hnz.
  rewrite !integrate_from_top_cumulative. repeat split.
  - rewrite Exact_facts.replicate_linear.
    destruct (Exact_facts.cumulative_linear (Exact.of_Z 0) C z i zi zl Hnz Hi Hl)
      as (r & Hr & Hri).
    exists r. split; [done|]. by rewrite Hri, Exact_facts.antiderivative_constant.
  - by apply Exact_facts.cumulative_linear.
  - rewrite Exact_facts.increasing_top_index by done.
    rewrite <- Hl, last_lookup. f_equal. lia.
  - f_equal. symmetry. apply Qcabs_pos.
    apply -> Qcle_minus_iff. by eapply Exact_facts.increasing_le_last.
Qed.

Lemma exact_for_constant_and_linear_witness :
  (increasing (Exact.of_Z <$> [0; 1; 2; 5; 10]%Z) = true ∨
   decreasing (Exact.of_Z <$> [0; 1; 2; 5; 10]%Z) = true) ∧
  (∃ r, integrate_from_top (Exact.of_Z <$> [0; 1; 2; 5; 10]%Z)
          (replicate (length (Exact.of_Z <$> [0; 1; 2; 5; 10]%Z)) (Exact.of_Z 10))
          = Ok r ∧
        r !! 1 = Some (Exact.of_Z 10 * (Exact.of_Z 10 - Exact.of_Z 1))%Qc) ∧
  (∃ r, integrate_from_top (Exact.of_Z <$> [0; 1; 2; 5; 10]%Z)
          (Exact.linear_rate (Exact.of_Z 2) (Exact.of_Z 3)
             <$> (Exact.of_Z <$> [0; 1; 2; 5; 10]%Z)) = Ok r ∧
        r !! 1 = Some (Exact.antiderivative (Exact.of_Z 2) (Exact.of_Z 3) (Exact.of_Z 10)
                       - Exact.antiderivative (Exact.of_Z 2) (Exact.of_Z 3) (Exact.of_Z 1))%Qc) ∧
  (increasing (Exact.of_Z <$> [0; 1; 2; 5; 10]%Z) = true →
     (Exact.of_Z <$> [0; 1; 2; 5; 10]%Z) !! top_index (Exact.of_Z <$> [0; 1; 2; 5; 10]%Z)
       = Some (Exact.of_Z 10) ∧
     (Exact.of_Z 10 * (Exact.of_Z 10 - Exact.of_Z 1)
      = Exact.of_Z 10 * Qcabs (Exact.of_Z 10 - Exact.of_Z 1))%Qc).
Proof.
  split; [left; reflexivity|].
  apply (exact_for_constant_and_linear (Exact.of_Z <$> [0; 1; 2; 5; 10]%Z)
           (Exact.of_Z 10) (Exact.of_Z 2) (Exact.of_Z 3) 1
           (Exact.of_Z 1) (Exact.of_Z 10)).
  - left. reflexivity.
  - reflexivity.
  - reflexivity.
Defined.

(** C6 as stated fails on a grid stored in decreasing order: for
    [altitude = [10, 0]] and the constant rate [1] the top index is 0 and
    [C * |altitude[top_index] - altitude[0]|] is 0, but the result at index 0
    is [-10]; so it is in binary64 and in exact arithmetic. *)
Lemma constant_profile_fails_on_decreasing_grid :
  decreasing (Exact.of_Z <$> [10; 0]%Z) = true ∧
  top_index (Exact.of_Z <$> [10; 0]%Z) = 0 ∧
  integrate_from_top (Exact.of_Z <$> [10; 0]%Z) (replicate 2 (Exact.of_Z 1))
    = Ok (Exact.of_Z <$> [-10; 0]%Z) ∧
  Exact.of_Z (-10) ≠ (Exact.of_Z 1 * Qcabs (Exact.of_Z 10 - Exact.of_Z 10))%Qc ∧
  top_index (B64.of_Z <$> [10; 0]%Z) = 0 ∧
  integrate_from_top (B64.of_Z <$> [10; 0]%Z) (replicate 2 (B64.of_Z 1))
    = Ok (B64.of_Z <$> [-10; 0]%Z) ∧
  neqb (B64.of_Z (-10))
       (mul (B64.of_Z 1) (SFabs (sub (B64.of_Z 10) (B64.of_Z 10)))) = true.
Proof. vm_compute. repeat split; done. Qed.

(** C7, amended.  In exact arithmetic, for every equal-length strictly
    monotonic grid and elementwise non-negative rate profile, the magnitude
    of the result does not decrease as the index moves away from the last
    index: [|result[i]| <= |result[j]|] whenever [j <= i].  The last index is
    the top index on grids stored in increasing order; on grids stored in
    decreasing order the magnitude is largest at the top index. *)
Theorem magnitude_grows_away_from_last_index (z q : list Qc) (i j : nat) :
  length z = length q →
  increasing z = true ∨ decreasing z = true →
  Forall (Qcle (Exact.of_Z 0)) q →
  j ≤ i → i < length z →
  ∃ r ri rj,
    integrate_from_top z q = Ok r ∧ r !! i = Some ri ∧ r !! j = Some rj ∧
    (Qcabs ri <= Qcabs rj)%Qc ∧
    (increasing z = true → top_index z = length z - 1).
Proof.
  intros Hlen Hmono Hq Hji Hi.
  pose proof (monotonic_no_zero_step z Hmono) as Hnz.
  assert (z ≠ []) as Hne by (intros ->; simpl in Hi; lia).
  exists (accumulate_back (trapezoids z q)),
    (sum_back (drop i (trapezoids z q))), (sum_back (drop j (trapezoids z q))).
  assert (length (trapezoids z q) = length z - 1) as Ha
    by (apply length_trapezoids; lia).
  repeat split.
  - by apply integrate_from_top_accumulate_back.
  - apply accumulate_back_lookup. lia.
  - apply accumulate_back_lookup. lia.
  - by apply abs_sum_back_mono.
  - apply Exact_facts.increasing_top_index.
Qed.

Lemma magnitude_grows_away_from_last_index_witness :
  length (Exact.of_Z <$> [0; 1; 2; 5; 10]%Z) = length (Exact.of_Z <$> [3; 0; 1; 4; 2]%Z) ∧
  ∃ r ri rj,
    integrate_from_top (Exact.of_Z <$> [0; 1; 2; 5; 10]%Z)
                       (Exact.of_Z <$> [3; 0; 1; 4; 2]%Z) = Ok r ∧
    r !! 3 = Some ri ∧ r !! 1 = Some rj ∧
    (Qcabs ri <= Qcabs rj)%Qc ∧
    (increasing (Exact.of_Z <$> [0; 1; 2; 5; 10]%Z) = true →
     top_index (Exact.of_Z <$> [0; 1; 2; 5; 10]%Z)
       = length (Exact.of_Z <$> [0; 1; 2; 5; 10]%Z) - 1).
Proof.
  split; [reflexivity|].
  apply (magnitude_grows_away_from_last_index
           (Exact.of_Z <$> [0; 1; 2; 5; 10]%Z) (Exact.of_Z <$> [3; 0; 1; 4; 2]%Z) 3 1).
  - reflexivity.
  - left. reflexivity.
  - repeat constructor; by vm_compute.
  - lia.
  - simpl. lia.
Defined.

(** C7 as stated fails on a grid stored in decreasing order: for
    [altitude = [10, 5, 0]] and [rate = [1, 1, 1]] the top index is 0, index 1
    is farther from it than index 0, and the result is [[-10, -5, 0]]:
    the magnitude falls from 10 to 5; so it is in binary64 and in exact
    arithmetic. *)
Lemma magnitude_shrinks_away_from_top :
  decreasing (Exact.of_Z <$> [10; 5; 0]%Z) = true ∧
  Forall (Qcle (Exact.of_Z 0)) (Exact.of_Z <$> [1; 1; 1]%Z) ∧
  top_index (Exact.of_Z <$> [10; 5; 0]%Z) = 0 ∧
  spec_farther_from_top (Exact.of_Z <$> [10; 5; 0]%Z) 0 1 = true ∧
  integrate_from_top (Exact.of_Z <$> [10; 5; 0]%Z) (Exact.of_Z <$> [1; 1; 1]%Z)
    = Ok (Exact.of_Z <$> [-10; -5; 0]%Z) ∧
  ¬ (Qcabs (Exact.of_Z (-10)) <= Qcabs (Exact.of_Z (-5)))%Qc ∧
  top_index (B64.of_Z <$> [10; 5; 0]%Z) = 0 ∧
  integrate_from_top (B64.of_Z <$> [10; 5; 0]%Z) (B64.of_Z <$> [1; 1; 1]%Z)
    = Ok (B64.of_Z <$> [-10; -5; 0]%Z) ∧
  SFleb (SFabs (B64.of_Z (-10))) (SFabs (B64.of_Z (-5))) = false.
Proof.
  repeat split; try by vm_compute.
  repeat constructor; by vm_compute.
Qed.

(** ** The order of convergence, in real arithmetic *)




(** ** The three formulations *)

(** X1.  The two loops, [analytical_cumulative_manual] and
    [integrate_from_top], are the same function: in every arithmetic and on
    every input, exceptions included, they return the same. *)
Lemma analytical_cumulative_manual_is_integrate_from_top {A : Type} `{Scalar A}
    (z q : list A) :
  analytical_cumulative_manual z q = integrate_from_top z q.
Proof. apply analytical_cumulative_manual_integrate_from_top. Qed.

(** C10.  In exact arithmetic, for every strictly increasing altitude grid
    of one or more points and aligned rate profile, the flip /
    cumulative_trapezoid / flip formulation with the final negation
    ([integrate_from_top_v1]) and the two backward loops
    ([analytical_cumulative_manual], [integrate_from_top]) return the same
    sequence.  Neither restriction can be dropped: in binary64 the two
    round differently, and on the empty grid only the loops return. *)
Theorem integrate_from_top_v1_equivalent (z q : list Qc) :
  increasing z = true → length z = length q → 1 ≤ length z →
  ∃ r, integrate_from_top_v1 z q = Ok r ∧
       analytical_cumulative_manual z q = Ok r ∧
       integrate_from_top z q = Ok r.
Proof.
  intros Hinc Hlen Hn.
  assert (z ≠ []) as Hne by (intros ->; simpl in Hn; lia).
  pose proof (Exact_facts.increasing_no_zero_step z Hinc) as Hnz.
  exists (accumulate_back (trapezoids z q)). repeat split.
  - by apply Exact_facts.integrate_from_top_v1_accumulate_back.
  - rewrite analytical_cumulative_manual_integrate_from_top.
    by apply integrate_from_top_accumulate_back.
  - by apply integrate_from_top_accumulate_back.
Qed.

Lemma integrate_from_top_v1_equivalent_witness :
  increasing (Exact.of_Z <$> [0; 1; 2; 5; 10]%Z) = true ∧
  length (Exact.of_Z <$> [0; 1; 2; 5; 10]%Z) = length (Exact.of_Z <$> [3; 0; 1; 4; 2]%Z) ∧
  ∃ r, integrate_from_top_v1 (Exact.of_Z <$> [0; 1; 2; 5; 10]%Z)
                             (Exact.of_Z <$> [3; 0; 1; 4; 2]%Z) = Ok r ∧
       analytical_cumulative_manual (Exact.of_Z <$> [0; 1; 2; 5; 10]%Z)
                                    (Exact.of_Z <$> [3; 0; 1; 4; 2]%Z) = Ok r ∧
       integrate_from_top (Exact.of_Z <$> [0; 1; 2; 5; 10]%Z)
                          (Exact.of_Z <$> [3; 0; 1; 4; 2]%Z) = Ok r.
Proof.
  split; [reflexivity|]. split; [reflexivity|].
  apply (integrate_from_top_v1_equivalent
           (Exact.of_Z <$> [0; 1; 2; 5; 10]%Z) (Exact.of_Z <$> [3; 0; 1; 4; 2]%Z)).
  - reflexivity.
  - reflexivity.
  - simpl. lia.
Defined.

(** C10, the two cases where the formulations differ.  In binary64, on the
    increasing grid [altitude = [0, 4]] with [rate = [2^-1074, 0]], SciPy
    forms [d * (y1 + y0) / 2], which is [2^-1073] after the negation, while
    the loops form [0.5 * (q0 + q1) * dz], whose first product rounds to
    zero: the results differ at index 0 by a value that [!=] tells apart.
    On the empty grid, in every arithmetic, [cumulative_trapezoid] raises
    ValueError while the loops return the empty array. *)
Lemma integrate_from_top_v1_not_equivalent :
  (let z := [B64.of_Z 0; B64.of_Z 4] in
   let q := [B64.of_Z_pow2 1 (-1074); B64.of_Z 0] in
   increasing z = true ∧ length z = length q ∧
   integrate_from_top_v1 z q = Ok [B64.of_Z_pow2 1 (-1073); S754_zero true] ∧
   analytical_cumulative_manual z q = Ok [S754_zero false; S754_zero false] ∧
   integrate_from_top z q = Ok [S754_zero false; S754_zero false] ∧
   neqb (B64.of_Z_pow2 1 (-1073)) (S754_zero false : B64.float) = true) ∧
  (increasing ([] : list Qc) = true ∧
   integrate_from_top_v1 ([] : list Qc) [] = Raise ValueError ∧
   analytical_cumulative_manual ([] : list Qc) [] = Ok [] ∧
   integrate_from_top ([] : list Qc) [] = Ok []) ∧
  (increasing ([] : list B64.float) = true ∧
   integrate_from_top_v1 ([] : list B64.float) [] = Raise ValueError ∧
   analytical_cumulative_manual ([] : list B64.float) [] = Ok [] ∧
   integrate_from_top ([] : list B64.float) [] = Ok []).
Proof. vm_compute. repeat split; done. Qed.

(** In binary64 the negation of the flipped sum leaves [-0.0] at the last
    index where the loops leave [0.0]; the two compare equal under [==]. *)
Lemma integrate_from_top_v1_binary64_zero :
  integrate_from_top_v1 (B64.of_Z <$> [0; 1; 2; 5; 10]%Z)
                        (B64.of_Z <$> [10; 10; 10; 10; 10]%Z)
    = Ok ((B64.of_Z <$> [100; 90; 80; 50]%Z) ++ [S754_zero true]) ∧
  integrate_from_top (B64.of_Z <$> [0; 1; 2; 5; 10]%Z)
                     (B64.of_Z <$> [10; 10; 10; 10; 10]%Z)
    = Ok ((B64.of_Z <$> [100; 90; 80; 50]%Z) ++ [S754_zero false]) ∧
  neqb (S754_zero true) (S754_zero false : B64.float) = false.
Proof. vm_compute. repeat split; done. Qed.

(** SciPy multiplies the step by the sum of the rates before halving, the
    loops halve first: a product that overflows in the one order only makes
    the two differ in binary64, here for [altitude = [0, 1.5]] and
    [rate = [2^1023, 2^1022]]. *)
Lemma integrate_from_top_v1_binary64_overflow :
  increasing [B64.of_Z 0; B64.of_Z_pow2 3 (-1)] = true ∧
  integrate_from_top_v1 [B64.of_Z 0; B64.of_Z_pow2 3 (-1)]
                        [B64.of_Z_pow2 1 1023; B64.of_Z_pow2 1 1022]
    = Ok [S754_infinity false; S754_zero true] ∧
  integrate_from_top [B64.of_Z 0; B64.of_Z_pow2 3 (-1)]
                     [B64.of_Z_pow2 1 1023; B64.of_Z_pow2 1 1022]
    = Ok [B64.of_Z_pow2 9 1020; S754_zero false].
Proof. vm_compute. repeat split; done. Qed.

(** * Further properties of the integrators *)

Section More_generic.
Context {A : Type} `{Scalar A}.

Lemma cumulative_take (z q : list A) :
  cumulative z q = cumulative z (take (length z) q).
Proof.
  revert q. induction z as [|z0 zs IH]; intros q; [done|].
  destruct zs as [|z1 zs]; [done|].
  rewrite !cumulative_cons2, (IH (tail q)).
  by destruct q as [|q0 [|q1 qs]].
Qed.

Lemma cumulative_zero_step (z q r : list A) (i : nat) (zi zn : A) :
  cumulative z q = Ok r →
  z !! i = Some zi → z !! S i = Some zn →
  neqb (sub zn zi) zero = false →
  r !! i = Some zero.
Proof.
  revert z q r. induction i as [|i IH]; intros z q r E Hi Hn G.
  - destruct z as [|z0 [|z1 zs]]; try done. simpl in Hi, Hn.
    injection Hi as ->. injection Hn as ->.
    rewrite cumulative_cons2, G in E.
    destruct (cumulative (zn :: zs) (tail q)); [|done]. by injection E as <-.
  - destruct z as [|z0 [|z1 zs]]; try done.
    rewrite cumulative_cons2 in E.
    destruct (cumulative (z1 :: zs) (tail q)) as [r'|e] eqn:E'; [|done].
    cbn [mbind result_bind] in E.
    assert (∃ c, r = c :: r') as [c ->].
    { destruct (neqb (sub z1 z0) zero); [|injection E as <-; eauto].
      destruct q as [|q0 [|q1 q']]; try done. injection E as <-; eauto. }
    rewrite lookup_cons. by apply (IH (z1 :: zs) (tail q)).
Qed.
End More_generic.

(** X2.  The entry at index [i] depends on the samples from [i] on only:
    integrating the sub-grid that starts at index [j] gives the result of the
    whole grid from index [j] on. *)
Theorem integrate_from_top_suffix {A : Type} `{Scalar A}
    (z q r : list A) (j : nat) :
  integrate_from_top z q = Ok r →
  integrate_from_top (drop j z) (drop j q) = Ok (drop j r).
Proof.
  rewrite !integrate_from_top_cumulative. apply cumulative_drop_Ok.
Qed.

Lemma integrate_from_top_suffix_witness :
  integrate_from_top (B64.of_Z <$> [0; 1; 2; 5; 10]%Z)
                     (B64.of_Z <$> [10; 10; 10; 10; 10]%Z)
    = Ok (B64.of_Z <$> [100; 90; 80; 50; 0]%Z) ∧
  integrate_from_top (drop 2 (B64.of_Z <$> [0; 1; 2; 5; 10]%Z))
                     (drop 2 (B64.of_Z <$> [10; 10; 10; 10; 10]%Z))
    = Ok (drop 2 (B64.of_Z <$> [100; 90; 80; 50; 0]%Z)).
Proof.
  split; [reflexivity|].
  apply (integrate_from_top_suffix
           (B64.of_Z <$> [0; 1; 2; 5; 10]%Z) (B64.of_Z <$> [10; 10; 10; 10; 10]%Z)
           (B64.of_Z <$> [100; 90; 80; 50; 0]%Z) 2).
  reflexivity.
Defined.

(** X3.  Rates beyond the length of the altitude array are never read:
    the result, or the exception, is that of the rate array cut to the
    length of the altitude array. *)
Theorem integrate_from_top_ignores_extra_rates {A : Type} `{Scalar A}
    (z q : list A) :
  integrate_from_top z q = integrate_from_top z (take (length z) q).
Proof. rewrite !integrate_from_top_cumulative. apply cumulative_take. Qed.

(** X4.  Where two neighbouring altitudes fail the guard [dz_local != 0]
    (a repeated altitude), the loop skips the assignment: the entry at the
    lower index keeps its initial 0 and the sum accumulated above it is not
    carried over. *)
Theorem integrate_from_top_resets_at_zero_step {A : Type} `{Scalar A}
    (z q r : list A) (i : nat) (zi zn : A) :
  integrate_from_top z q = Ok r →
  z !! i = Some zi → z !! S i = Some zn →
  neqb (sub zn zi) zero = false →
  r !! i = Some zero.
Proof.
  rewrite integrate_from_top_cumulative. apply cumulative_zero_step.
Qed.

Lemma integrate_from_top_resets_at_zero_step_witness :
  integrate_from_top (B64.of_Z <$> [0; 1; 1; 2]%Z) (B64.of_Z <$> [4; 4; 4; 4]%Z)
    = Ok (B64.of_Z <$> [4; 0; 4; 0]%Z) ∧
  (B64.of_Z <$> [4; 0; 4; 0]%Z) !! 1 = Some (zero : B64.float).
Proof.
  split; [reflexivity|].
  apply (integrate_from_top_resets_at_zero_step
           (B64.of_Z <$> [0; 1; 1; 2]%Z) (B64.of_Z <$> [4; 4; 4; 4]%Z)
           (B64.of_Z <$> [4; 0; 4; 0]%Z) 1 (B64.of_Z 1) (B64.of_Z 1));
    reflexivity.
Defined.

Section More_flip.
Context {A : Type} `{Scalar A}.

Lemma length_cumsum_from (acc : A) (t : list A) :
  length (cumsum_from acc t) = length t.
Proof. revert acc. induction t as [|t0 t IH]; intros acc; simpl; by rewrite ?IH. Qed.

Lemma length_np_cumsum (t : list A) : length (np_cumsum t) = length t.
Proof. destruct t; simpl; by rewrite ?length_cumsum_from. Qed.

Lemma length_removelast {B : Type} (l : list B) :
  length (removelast l) = length l - 1.
Proof.
  induction l as [|x l IH]; [done|]. destruct l as [|y l]; [done|].
  change (removelast (x :: y :: l)) with (x :: removelast (y :: l)).
  cbn [length] in *. lia.
Qed.

Lemma cumulative_trapezoid_Ok (y x : list A) :
  y ≠ [] → length x - 1 = length y - 1 →
  ∃ t, cumulative_trapezoid y x = Ok (zero :: t) ∧ length t = length y - 1.
Proof.
  intros Hy Hlen. unfold cumulative_trapezoid.
  destruct (decide (length y = 0)) as [H0|_]; [by destruct y|].
  destruct (decide _) as [_|Hd]; [|by rewrite length_np_diff in Hd].
  eexists. split; [done|].
  rewrite length_np_cumsum, !length_zip_with, length_np_diff, length_drop,
    length_removelast. lia.
Qed.

Lemma cumulative_trapezoid_Raise (y x : list A) :
  y = [] ∨ length x - 1 ≠ length y - 1 →
  cumulative_trapezoid y x = Raise ValueError.
Proof.
  intros Hcase. unfold cumulative_trapezoid.
  destruct (decide (length y = 0)) as [|Hy]; [done|].
  destruct (decide _) as [Hd|]; [|done].
  rewrite length_np_diff in Hd. destruct Hcase as [->|?]; [done|lia].
Qed.
End More_flip.

(** X5.  [integrate_from_top_v1] raises nothing but SciPy's ValueError, and
    raises it exactly when the rate array is empty or the two lengths differ
    (an empty altitude array counting as one of length 1); otherwise the
    result has the length of the rate array and ends in the negated zero. *)
Theorem integrate_from_top_v1_value_error {A : Type} `{Scalar A} (z q : list A) :
  (integrate_from_top_v1 z q = Raise ValueError ↔
     q = [] ∨ length z - 1 ≠ length q - 1) ∧
  (∀ e, integrate_from_top_v1 z q = Raise e → e = ValueError) ∧
  (∀ r, integrate_from_top_v1 z q = Ok r →
        length r = length q ∧ last r = Some (neg zero)).
Proof.
  unfold integrate_from_top_v1.
  destruct (decide (q = [] ∨ length z - 1 ≠ length q - 1)) as [Hbad|Hgood].
  - rewrite cumulative_trapezoid_Raise.
    + repeat split; try done. by intros e [= <-].
    + rewrite !length_reverse. destruct Hbad as [->|?]; [by left|by right].
  - assert (q ≠ []) as Hq by (intros ->; apply Hgood; by left).
    assert (length z - 1 = length q - 1) as Hlen.
    { destruct (decide (length z - 1 = length q - 1)); [done|].
      exfalso. apply Hgood. by right. }
    destruct (cumulative_trapezoid_Ok (reverse q) (reverse z)) as (t & Ht & Hl).
    { intros E. apply (f_equal reverse) in E. by rewrite reverse_involutive in E. }
    { by rewrite !length_reverse. }
    rewrite Ht. cbn [mbind result_bind].
    split; [split; [done|by intros ?]|]. split; [done|].
    intros r [= <-]. split.
    + rewrite length_fmap, length_reverse. cbn [length].
      rewrite Hl, length_reverse. destruct q; [done|]. simpl. lia.
    + rewrite reverse_cons, fmap_app. cbn [fmap list_fmap]. apply last_snoc.
Qed.

(** X6.  In exact arithmetic, on every equal-length pair of one or more
    points, monotonic or not, [integrate_from_top_v1] returns at index [i]
    the sum of the trapezoid areas from index [i] to the last index: unlike
    the loops it has no guard and carries the sum across a repeated
    altitude. *)
Theorem integrate_from_top_v1_partial_sums (z q : list Qc) :
  length z = length q → 1 ≤ length z →
  ∃ r, integrate_from_top_v1 z q = Ok r ∧
       ∀ i, i < length z →
            r !! i = Some (sum_back (drop i (trapezoids z q))).
Proof.
  intros Hlen Hn. exists (accumulate_back (trapezoids z q)). split.
  - apply Exact_facts.integrate_from_top_v1_accumulate_back; [done|].
    intros ->. simpl in Hn. lia.
  - intros i Hi. apply accumulate_back_lookup. rewrite length_trapezoids; lia.
Qed.

Lemma integrate_from_top_v1_partial_sums_witness :
  length (Exact.of_Z <$> [0; 1; 1; 2]%Z) = length (Exact.of_Z <$> [4; 4; 4; 4]%Z) ∧
  ∃ r, integrate_from_top_v1 (Exact.of_Z <$> [0; 1; 1; 2]%Z)
                             (Exact.of_Z <$> [4; 4; 4; 4]%Z) = Ok r ∧
       ∀ i, i < length (Exact.of_Z <$> [0; 1; 1; 2]%Z) →
            r !! i = Some (sum_back (drop i
              (trapezoids (Exact.of_Z <$> [0; 1; 1; 2]%Z)
                          (Exact.of_Z <$> [4; 4; 4; 4]%Z)))).
Proof.
  split; [reflexivity|].
  apply (integrate_from_top_v1_partial_sums
           (Exact.of_Z <$> [0; 1; 1; 2]%Z) (Exact.of_Z <$> [4; 4; 4; 4]%Z)).
  - reflexivity.
  - simpl. lia.
Defined.

Section More_exact.
Import Exact Exact_facts.
Local Open Scope Qc_scope.

Lemma trapezoid_combination (c z0 z1 a0 a1 b0 b1 : Qc) :
  trapezoid z0 z1 (c * a0 + b0) (c * a1 + b1) =
    c * trapezoid z0 z1 a0 a1 + trapezoid z0 z1 b0 b1.
Proof. to_Qc. ring. Qed.

Lemma cumulative_combination (c : Qc) (z q1 q2 : list Qc) :
  length z = length q1 → length z = length q2 →
  ∃ r1 r2,
    cumulative z q1 = Ok r1 ∧ cumulative z q2 = Ok r2 ∧
    cumulative z (zip_with (λ a b, c * a + b) q1 q2)
      = Ok (zip_with (λ a b, c * a + b) r1 r2).
Proof.
  revert q1 q2. induction z as [|z0 zs IH]; intros q1 q2 H1 H2.
  { exists [], []. by destruct q1, q2. }
  destruct zs as [|z1 zs].
  { exists (0 :: []), (0 :: []). repeat split. cbn. do 2 f_equal. ring. }
  destruct q1 as [|a0 [|a1 q1]], q2 as [|b0 [|b1 q2]]; try done.
  destruct (IH (a1 :: q1) (b1 :: q2)) as (r1 & r2 & E1 & E2 & E12);
    [simpl in *; lia|simpl in *; lia|].
  assert (length r1 = length (z1 :: zs)) as L1 by by eapply cumulative_length.
  assert (length r2 = length (z1 :: zs)) as L2 by by eapply cumulative_length.
  destruct r1 as [|x1 r1], r2 as [|x2 r2]; try done.
  change (zip_with (λ a b, c * a + b) (a0 :: a1 :: q1) (b0 :: b1 :: q2))
    with ((c * a0 + b0) :: zip_with (λ a b, c * a + b) (a1 :: q1) (b1 :: q2)).
  rewrite !cumulative_cons2. cbn [tail]. rewrite E1, E2, E12.
  cbn [mbind result_bind].
  change (zip_with (λ a b, c * a + b) (a1 :: q1) (b1 :: q2))
    with ((c * a1 + b1) :: zip_with (λ a b, c * a + b) q1 q2).
  destruct (neqb (sub z1 z0) zero).
  - eexists _, _. repeat split. cbn [zip_with hd]. do 2 f_equal.
    rewrite trapezoid_combination. to_Qc. ring.
  - eexists _, _. repeat split. cbn [zip_with]. do 2 f_equal. to_Qc. ring.
Qed.

Lemma accumulate_back_nonneg (a : list Qc) :
  Forall (Qcle 0) a → Forall (Qcle 0) (accumulate_back a).
Proof.
  induction 1 as [|a0 a H0 Ha IH]; [by repeat constructor|].
  cbn [accumulate_back]. constructor; [|done].
  apply plus_nonneg; [by apply sum_back_nonneg|done].
Qed.

Lemma accumulate_back_opp (a : list Qc) :
  accumulate_back (Qcopp <$> a) = Qcopp <$> accumulate_back a.
Proof.
  induction a as [|a0 a IH]; [cbn; f_equal; ring|].
  rewrite fmap_cons. cbn [accumulate_back]. rewrite fmap_cons, IH, sum_back_opp.
  f_equal. to_Qc. ring.
Qed.

Lemma accumulate_back_nonpos (a : list Qc) :
  Forall (λ x, 0 <= - x) a → Forall (λ x, x <= 0) (accumulate_back a).
Proof.
  intros Ha.
  assert (Forall (Qcle 0) (Qcopp <$> accumulate_back a)) as Hopp.
  { rewrite <- accumulate_back_opp. by apply accumulate_back_nonneg, Forall_fmap. }
  rewrite Forall_fmap in Hopp. eapply Forall_impl; [exact Hopp|].
  intros x Hx. unfold compose in Hx. apply Qcopp_le_compat in Hx.
  rewrite Qcopp_involutive in Hx. exact Hx.
Qed.
End More_exact.

(** X7.  In exact arithmetic [integrate_from_top] is linear in the rate
    profile: on one grid, the result for the rates [c * a + b] is [c] times
    the result for [a] plus the result for [b], entry by entry, whatever the
    grid (the guard looks at the altitudes only). *)
Theorem integrate_from_top_linear_in_rate (c : Qc) (z q1 q2 : list Qc) :
  length z = length q1 → length z = length q2 →
  ∃ r1 r2,
    integrate_from_top z q1 = Ok r1 ∧ integrate_from_top z q2 = Ok r2 ∧
    integrate_from_top z (zip_with (λ a b, c * a + b)%Qc q1 q2)
      = Ok (zip_with (λ a b, c * a + b)%Qc r1 r2).
Proof.
  rewrite !integrate_from_top_cumulative. apply cumulative_combination.
Qed.

Lemma integrate_from_top_linear_in_rate_witness :
  length (Exact.of_Z <$> [0; 1; 1; 5]%Z) = length (Exact.of_Z <$> [3; 0; 1; 4]%Z) ∧
  length (Exact.of_Z <$> [0; 1; 1; 5]%Z) = length (Exact.of_Z <$> [2; 2; 7; 1]%Z) ∧
  ∃ r1 r2,
    integrate_from_top (Exact.of_Z <$> [0; 1; 1; 5]%Z)
                       (Exact.of_Z <$> [3; 0; 1; 4]%Z) = Ok r1 ∧
    integrate_from_top (Exact.of_Z <$> [0; 1; 1; 5]%Z)
                       (Exact.of_Z <$> [2; 2; 7; 1]%Z) = Ok r2 ∧
    integrate_from_top (Exact.of_Z <$> [0; 1; 1; 5]%Z)
      (zip_with (λ a b, Exact.of_Z (-3) * a + b)%Qc
         (Exact.of_Z <$> [3; 0; 1; 4]%Z) (Exact.of_Z <$> [2; 2; 7; 1]%Z))
      = Ok (zip_with (λ a b, Exact.of_Z (-3) * a + b)%Qc r1 r2).
Proof.
  split; [reflexivity|]. split; [reflexivity|].
  apply (integrate_from_top_linear_in_rate (Exact.of_Z (-3))
           (Exact.of_Z <$> [0; 1; 1; 5]%Z) (Exact.of_Z <$> [3; 0; 1; 4]%Z)
           (Exact.of_Z <$> [2; 2; 7; 1]%Z)); reflexivity.
Defined.

(** X8.  In exact arithmetic and for elementwise non-negative rates, every
    entry of the result is non-negative on a strictly increasing grid and
    non-positive on a strictly decreasing grid: the sign of the integral
    follows the storage order. *)
Theorem integrate_from_top_sign (z q : list Qc) :
  length z = length q → 1 ≤ length z →
  Forall (Qcle (Exact.of_Z 0)) q →
  ∃ r, integrate_from_top z q = Ok r ∧
       (increasing z = true → Forall (Qcle (Exact.of_Z 0)) r) ∧
       (decreasing z = true → Forall (λ x, x <= Exact.of_Z 0)%Qc r).
Proof.
  intros Hlen Hn Hq. rewrite integrate_from_top_cumulative.
  destruct (cumulative_Ok z q) as [r Hr]; [lia|]. exists r.
  assert (z ≠ []) as Hne by (intros ->; simpl in Hn; lia).
  repeat split; [done|..]; intros Hz.
  - rewrite cumulative_accumulate_back in Hr;
      [|by apply Exact_facts.increasing_no_zero_step|lia|done].
    injection Hr as <-.
    by apply accumulate_back_nonneg, Exact_facts.trapezoids_nonneg.
  - rewrite cumulative_accumulate_back in Hr;
      [|by apply Exact_facts.decreasing_no_zero_step|lia|done].
    injection Hr as <-.
    by apply accumulate_back_nonpos, Exact_facts.trapezoids_nonpos.
Qed.

Lemma integrate_from_top_sign_witness :
  length (Exact.of_Z <$> [10; 5; 0]%Z) = length (Exact.of_Z <$> [1; 1; 3]%Z) ∧
  ∃ r, integrate_from_top (Exact.of_Z <$> [10; 5; 0]%Z)
                          (Exact.of_Z <$> [1; 1; 3]%Z) = Ok r ∧
       (increasing (Exact.of_Z <$> [10; 5; 0]%Z) = true →
        Forall (Qcle (Exact.of_Z 0)) r) ∧
       (decreasing (Exact.of_Z <$> [10; 5; 0]%Z) = true →
        Forall (λ x, x <= Exact.of_Z 0)%Qc r).
Proof.
  split; [reflexivity|].
  apply (integrate_from_top_sign
           (Exact.of_Z <$> [10; 5; 0]%Z) (Exact.of_Z <$> [1; 1; 3]%Z)).
  - reflexivity.
  - simpl. lia.
  - repeat constructor; by vm_compute.
Defined.

(** * The result collector and the tests *)

Section Collector.
Import TestResults.

(** The state after a sequence of [add_result] calls. *)
Lemma add_results_from (calls : list (string * bool * message)) (s : t) :
  let s' := foldl (λ s (c : string * bool * message), add_result s c.1.1 c.1.2 c.2) s calls in
  passed s' = passed s
    + length (filter (λ c : string * bool * message, c.1.2 = true) calls) ∧
  failed s' = failed s
    + length (filter (λ c : string * bool * message, c.1.2 = false) calls) ∧
  results s' = results s ++
    ((λ c : string * bool * message,
        (c.1.1, if c.1.2 then "PASS" else "FAIL", c.2)) <$> calls).
Proof.
  revert s. induction calls as [|[[name ok] msg] calls IH]; intros s.
  { cbn. by rewrite !Nat.add_0_r, app_nil_r. }
  cbn zeta. cbn [foldl fst snd].
  destruct (IH (add_result s name ok msg)) as (Hp & Hf & Hr).
  cbn zeta in Hp, Hf, Hr. rewrite Hp, Hf, Hr.
  rewrite !filter_cons. cbn [fst snd fmap list_fmap].
  destruct ok; repeat case_decide; try done;
    cbn [add_result passed failed results length];
    rewrite <- ?app_assoc; repeat split; try done; lia.
Qed.
Lemma count_flags (calls : list (string * bool * message)) :
  length (filter (λ c : string * bool * message, c.1.2 = true) calls)
  + length (filter (λ c : string * bool * message, c.1.2 = false) calls)
  = length calls.
Proof.
  induction calls as [|[[name ok] msg] calls IH]; [done|].
  rewrite !filter_cons. cbn [fst snd].
  destruct ok; repeat case_decide; try done; cbn [length] in *; lia.
Qed.
End Collector.

(** X9.  After any sequence of [add_result] calls on a fresh [TestResults],
    [passed] counts the calls made with a true flag and [failed] the others,
    the two add up to the number of recorded results, and the results are the
    calls in order, each with status "PASS" or "FAIL". *)
Theorem TestResults_counts (calls : list (string * bool * message)) :
  let s := foldl (λ s (c : string * bool * message),
                  TestResults.add_result s c.1.1 c.1.2 c.2)
                 TestResults.init calls in
  TestResults.passed s
    = length (filter (λ c : string * bool * message, c.1.2 = true) calls) ∧
  TestResults.failed s
    = length (filter (λ c : string * bool * message, c.1.2 = false) calls) ∧
  TestResults.passed s + TestResults.failed s = length (TestResults.results s) ∧
  TestResults.results s =
    (λ c : string * bool * message,
       (c.1.1, if c.1.2 then "PASS" else "FAIL", c.2)) <$> calls.
Proof.
  destruct (add_results_from calls TestResults.init) as (Hp & Hf & Hr).
  cbn zeta in *. cbn in Hp, Hf, Hr. repeat split; try done.
  rewrite Hp, Hf, Hr, length_fmap. apply count_flags.
Qed.

(** X10.  [print_summary] returns True exactly when no call of the sequence
    recorded a failure, that is when every recorded status is "PASS". *)
Theorem print_summary_all_passed (calls : list (string * bool * message)) :
  let s := foldl (λ s (c : string * bool * message),
                  TestResults.add_result s c.1.1 c.1.2 c.2)
                 TestResults.init calls in
  (TestResults.print_summary s = true ↔
     Forall (λ c : string * bool * message, c.1.2 = true) calls) ∧
  (TestResults.print_summary s = true ↔
     Forall (λ r : string * string * message, r.1.2 = "PASS")
            (TestResults.results s)).
Proof.
  destruct (add_results_from calls TestResults.init) as (_ & Hf & Hr).
  cbn zeta in *. cbn in Hf, Hr. unfold TestResults.print_summary.
  rewrite Hf, Hr, Nat.eqb_eq, Forall_fmap. clear Hf Hr.
  assert (length (filter (λ c : string * bool * message, c.1.2 = false) calls) = 0
          ↔ Forall (λ c : string * bool * message, c.1.2 = true) calls) as Hiff.
  { induction calls as [|[[name ok] msg] calls IH]; [done|].
    rewrite filter_cons, Forall_cons. cbn [fst snd].
    destruct ok; case_decide; try done.
    - rewrite IH. split; [done|by intros [_ ?]].
    - cbn [length]. split; [lia|]. by intros [? _]. }
  split; [done|]. rewrite Hiff. apply Forall_iff. intros [[name ok] msg].
  cbn. by destruct ok.
Qed.

(** X11.  [test_integration_edge_cases] cannot record a failure: on every
    collector it appends a "PASS" for the single point (the integrator
    returns the one entry 0) and a "PASS" for the empty array, for which the
    integrator is not called. *)
Theorem test_integration_edge_cases_passes (results : TestResults.t) :
  test_integration_edge_cases results =
    TestResults.add_result
      (TestResults.add_result results "Single Point Integration" true
         (Text "Handled correctly (q_cum = 0)"))
      "Empty Array Integration" true (Text "Gracefully handled (empty input)").
Proof. reflexivity. Qed.

(** X12.  [test_nan_propagation] raises nothing and records a "PASS" on
    every collector: in binary64 the entry at index 2 of its result is NaN. *)
Theorem test_nan_propagation_passes (results : TestResults.t) :
  test_nan_propagation results =
    Ok (TestResults.add_result results "NaN Propagation" true
          (Text "NaN correctly propagates to output")).
Proof. by vm_compute. Qed.

(** X13.  [test_integration_linear] records a "PASS" on every collector:
    on its grid of 1001 unit steps every binary64 operation of the
    integrator and of the closed form is exact, so the error is 0. *)
Theorem test_integration_linear_passes (results : TestResults.t) :
  test_integration_linear results =
    Ok (TestResults.add_result results "Linear Integration" true
          (Text "Exact match (within machine precision)")).
Proof. by vm_compute. Qed.

(** X14.  [test_integration_constant] records a "PASS" on every collector:
    the binary64 result equals [C * (z_top - z)] entry by entry. *)
Theorem test_integration_constant_passes (results : TestResults.t) :
  test_integration_constant results =
    Ok (TestResults.add_result results "Constant Integration" true
          (Text "Exact match")).
Proof. by vm_compute. Qed.

(** * The test runner *)

Section Runner.
Import AtmosphericBoundaryValidator.
Context (tests : string → outcome).

Lemma run_test_spec (s : t) (name : string) (o : outcome) :
  match run_test s name o with
  | (s', Returned v) =>
      ∃ d, stored o = Some d ∧ escapes o = None ∧
           truthy v = passes o ∧
           truthy (default (PyBool false) (d !! "passed")) = passes o ∧
           passed_tests s' = passed_tests s + (if passes o then 1 else 0) ∧
           failed_tests s' = failed_tests s + (if passes o then 0 else 1) ∧
           errors s' = errors s ∧ verbose s' = verbose s ∧
           test_results s' = <[name := d]> (test_results s)
  | (s', Propagated e) => o = Escapes e ∧ s' = s
  end.
Proof.
  destruct o as [d|str_e|e]; cbn [run_test]; cbn zeta.
  - destruct (truthy (default (PyBool false) (d !! "passed"))) eqn:E;
      exists d; unfold passes; rewrite E; cbn; repeat split; lia.
  - eexists. split; [reflexivity|]. cbn. repeat split; lia.
  - done.
Qed.

Lemma run_several_spec (names : list string) (s : t) :
  ∃ ran rest,
    names = ran ++ rest ∧
    Forall (λ n, escapes (tests n) = None) ran ∧
    match (run_several s tests names).2 with
    | Returned _ => rest = []
    | Propagated e => ∃ n rest', rest = n :: rest' ∧ tests n = Escapes e
    end ∧
    let s' := (run_several s tests names).1 in
    passed_tests s' = passed_tests s
      + length (filter (λ n, passes (tests n) = true) ran) ∧
    failed_tests s' = failed_tests s
      + length (filter (λ n, passes (tests n) = false) ran) ∧
    errors s' = errors s ∧ verbose s' = verbose s ∧
    (∀ n, n ∈ ran → test_results s' !! n = stored (tests n)) ∧
    (∀ n, n ∉ ran → test_results s' !! n = test_results s !! n).
Proof.
  revert s. induction names as [|name names IH]; intros s.
  { exists [], []. cbn. repeat split; try done; try lia.
    intros n Hn. by apply elem_of_nil in Hn. }
  pose proof (run_test_spec s name (tests name)) as H1.
  cbn [run_several].
  destruct (run_test s name (tests name)) as [s1 [v|e]].
  - destruct H1 as (d & Hd & He & _ & _ & Hp1 & Hf1 & He1 & Hv1 & Hr1).
    destruct (IH s1) as (ran & rest & -> & Fr & Hc & Hp & Hf & Her & Hv & Hin & Hout).
    exists (name :: ran), rest. cbn zeta in *.
    split; [done|]. split; [by constructor|]. split; [done|].
    rewrite Hp, Hf, Her, Hv, Hp1, Hf1, He1, Hv1, !filter_cons.
    repeat split; try done.
    + destruct (passes (tests name)); repeat case_decide; try done;
        cbn [length]; lia.
    + destruct (passes (tests name)); repeat case_decide; try done;
        cbn [length]; lia.
    + intros n Hn. destruct (decide (n ∈ ran)) as [Hi|Hni]; [by apply Hin|].
      apply elem_of_cons in Hn as [->|?]; [|done].
      by rewrite Hout, Hr1, lookup_insert_eq.
    + intros n Hn. apply not_elem_of_cons in Hn as [Hne Hn].
      by rewrite Hout, Hr1, lookup_insert_ne.
  - destruct H1 as [He ->]. exists [], (name :: names). cbn.
    repeat split; try done; try lia.
    + by exists name, names.
    + intros n Hn. by apply elem_of_nil in Hn.
Qed.

Lemma count_passes (names : list string) :
  length (filter (λ n, passes (tests n) = true) names)
  + length (filter (λ n, passes (tests n) = false) names) = length names.
Proof.
  induction names as [|name names IH]; [done|].
  rewrite !filter_cons.
  destruct (passes (tests name)); repeat case_decide; try done;
    cbn [length]; lia.
Qed.

Lemma no_failure_iff (names : list string) :
  length (filter (λ n, passes (tests n) = false) names) = 0
  ↔ Forall (λ n, passes (tests n) = true) names.
Proof.
  induction names as [|name names IH]; [done|].
  rewrite filter_cons, Forall_cons.
  destruct (passes (tests name)); case_decide; try done.
  - rewrite IH. split; [done|by intros [_ ?]].
  - cbn [length]. split; [lia|]. by intros [? _].
Qed.

(** What a test that is caught or returns stores says whether it passed. *)
Lemma stored_passed (o : outcome) (d : gmap string pyvalue) :
  stored o = Some d →
  truthy (default (PyBool false) (d !! "passed")) = passes o.
Proof. destruct o; intros [= <-]; done. Qed.
End Runner.

(** X15.  Running tests one after the other from any state of the
    validator, with printing taken to succeed.  The run goes through the
    names in order and stops at the first test that raises an exception
    outside [Exception] (SystemExit, KeyboardInterrupt, ...), which
    propagates; it returns when no test does.  Every test run before that
    point, whether it returned a dictionary or raised an [Exception], adds
    one to exactly one of the two counters ([passed_tests] when it returned
    a dictionary whose 'passed' entry is true, else [failed_tests]) and ends
    up bound to what was stored for it; the escaping test and the tests
    after it change nothing; [errors] is never written. *)
Theorem run_tests_counts (tests : string → outcome) (names : list string)
    (self : AtmosphericBoundaryValidator.t) :
  ∃ ran rest,
    names = ran ++ rest ∧
    Forall (λ n, AtmosphericBoundaryValidator.escapes (tests n) = None) ran ∧
    match (AtmosphericBoundaryValidator.run_several self tests names).2 with
    | Returned _ => rest = []
    | Propagated e => ∃ n rest', rest = n :: rest' ∧ tests n = Escapes e
    end ∧
    let self' :=
      (AtmosphericBoundaryValidator.run_several self tests names).1 in
    AtmosphericBoundaryValidator.passed_tests self'
      + AtmosphericBoundaryValidator.failed_tests self'
      = AtmosphericBoundaryValidator.passed_tests self
        + AtmosphericBoundaryValidator.failed_tests self + length ran ∧
    AtmosphericBoundaryValidator.failed_tests self'
      = AtmosphericBoundaryValidator.failed_tests self
        + length (filter
            (λ n, AtmosphericBoundaryValidator.passes (tests n) = false) ran) ∧
    AtmosphericBoundaryValidator.errors self'
      = AtmosphericBoundaryValidator.errors self ∧
    (∀ n, n ∈ ran →
          ∃ d, AtmosphericBoundaryValidator.stored (tests n) = Some d ∧
               AtmosphericBoundaryValidator.test_results self' !! n = Some d) ∧
    (∀ n, n ∉ ran →
          AtmosphericBoundaryValidator.test_results self' !! n
            = AtmosphericBoundaryValidator.test_results self !! n).
Proof.
  destruct (run_several_spec tests names self)
    as (ran & rest & E & Fr & Hc & Hp & Hf & He & _ & Hin & Hout).
  pose proof (count_passes tests ran) as Hn.
  exists ran, rest. cbn zeta in *. repeat split; try done; [lia|].
  intros n Hi. rewrite (Hin n Hi).
  pose proof (proj1 (Forall_forall _ _) Fr n Hi) as Hesc. cbn beta in Hesc.
  destruct (tests n); [by eexists|by eexists|done].
Qed.

(** X16.  The three ways one [run_test] call can end, with printing taken
    to succeed.  When the test raises an exception outside [Exception], the
    exception propagates and neither counter nor [test_results] changes.
    Otherwise [run_test] returns, exactly one counter goes up by one,
    [errors] and the other names are untouched, and the truth value
    returned, the counter chosen and the 'passed' entry of the dictionary
    stored under the test's name all agree.  The test counts as failed, and
    False is returned, when it raised an [Exception] (the stored dictionary
    then has 'passed' False and the exception's text under 'error' and,
    after 'Exception: ', under 'message') and when it returned a dictionary
    without a 'passed' entry. *)
Theorem run_test_failure_modes (self : AtmosphericBoundaryValidator.t)
    (name : string) (test_func : outcome) :
  match AtmosphericBoundaryValidator.run_test self name test_func with
  | (self', Propagated e) => test_func = Escapes e ∧ self' = self
  | (self', Returned v) =>
      ∃ d,
        AtmosphericBoundaryValidator.test_results self'
          = <[name := d]> (AtmosphericBoundaryValidator.test_results self) ∧
        AtmosphericBoundaryValidator.errors self'
          = AtmosphericBoundaryValidator.errors self ∧
        AtmosphericBoundaryValidator.verbose self'
          = AtmosphericBoundaryValidator.verbose self ∧
        truthy (default (PyBool false) (d !! "passed")) = truthy v ∧
        (if truthy v
         then AtmosphericBoundaryValidator.passed_tests self'
                = AtmosphericBoundaryValidator.passed_tests self + 1 ∧
              AtmosphericBoundaryValidator.failed_tests self'
                = AtmosphericBoundaryValidator.failed_tests self ∧
              test_func = Returns d
         else AtmosphericBoundaryValidator.passed_tests self'
                = AtmosphericBoundaryValidator.passed_tests self ∧
              AtmosphericBoundaryValidator.failed_tests self'
                = AtmosphericBoundaryValidator.failed_tests self + 1) ∧
        match test_func with
        | Returns result =>
            d = result ∧ v = default (PyBool false) (result !! "passed")
        | Raises str_e =>
            v = PyBool false ∧
            d !! "passed" = Some (PyBool false) ∧
            d !! "error" = Some (PyStr str_e) ∧
            d !! "message" = Some (PyStr ("Exception: " +:+ str_e)) ∧
            size d = 3
        | Escapes _ => False
        end
  end.
Proof.
  destruct test_func as [result|str_e|e];
    cbn [AtmosphericBoundaryValidator.run_test]; cbn zeta.
  - destruct (truthy (default (PyBool false) (result !! "passed"))) eqn:E;
      exists result; cbn; rewrite E; repeat split; lia.
  - eexists. cbn. repeat split.
  - done.
Qed.

(** X17.  [run_all_tests] from any state of the validator, with printing
    taken to succeed.  If none of the twenty tests raises an exception
    outside [Exception], it returns, and the dictionary it returns reports
    twenty tests: [total_tests] is 20, the results hold exactly the twenty
    names, each bound to what was stored for its test, [passed_tests] is
    the number of passing tests and [failed_tests] the rest, and
    [all_passed] is True exactly when every test passes, which is exactly
    when every stored result has a true 'passed' entry.  If some test does
    raise such an exception, nothing is returned: the exception of the
    first such test, in the order of the calls, propagates, and the
    validator is left holding the counts and results of the tests before
    it only. *)
Theorem run_all_tests_summary (tests : string → outcome)
    (self : AtmosphericBoundaryValidator.t) :
  match AtmosphericBoundaryValidator.run_all_tests self tests with
  | (self', Returned r) =>
      Forall (λ n, AtmosphericBoundaryValidator.escapes (tests n) = None)
             AtmosphericBoundaryValidator.test_names ∧
      AtmosphericBoundaryValidator.summary_total_tests r = 20 ∧
      AtmosphericBoundaryValidator.summary_passed_tests r
        = length
            (filter (λ n, AtmosphericBoundaryValidator.passes (tests n) = true)
                    AtmosphericBoundaryValidator.test_names) ∧
      AtmosphericBoundaryValidator.summary_passed_tests r
        + AtmosphericBoundaryValidator.summary_failed_tests r = 20 ∧
      (AtmosphericBoundaryValidator.summary_all_passed r = true ↔
         Forall (λ n, AtmosphericBoundaryValidator.passes (tests n) = true)
                AtmosphericBoundaryValidator.test_names) ∧
      (AtmosphericBoundaryValidator.summary_all_passed r = true ↔
         ∀ n d, AtmosphericBoundaryValidator.summary_results r !! n = Some d →
                truthy (default (PyBool false) (d !! "passed")) = true) ∧
      (∀ n, AtmosphericBoundaryValidator.summary_results r !! n
            = if decide (n ∈ AtmosphericBoundaryValidator.test_names)
              then AtmosphericBoundaryValidator.stored (tests n)
              else None) ∧
      size (AtmosphericBoundaryValidator.summary_results r) = 20 ∧
      AtmosphericBoundaryValidator.passed_tests self'
        = AtmosphericBoundaryValidator.summary_passed_tests r ∧
      AtmosphericBoundaryValidator.failed_tests self'
        = AtmosphericBoundaryValidator.summary_failed_tests r ∧
      AtmosphericBoundaryValidator.test_results self'
        = AtmosphericBoundaryValidator.summary_results r ∧
      AtmosphericBoundaryValidator.errors self' = []
  | (self', Propagated e) =>
      ∃ ran n rest,
        AtmosphericBoundaryValidator.test_names = ran ++ n :: rest ∧
        Forall (λ n, AtmosphericBoundaryValidator.escapes (tests n) = None)
               ran ∧
        tests n = Escapes e ∧
        AtmosphericBoundaryValidator.passed_tests self'
          = length
              (filter
                 (λ n, AtmosphericBoundaryValidator.passes (tests n) = true)
                 ran) ∧
        AtmosphericBoundaryValidator.passed_tests self'
          + AtmosphericBoundaryValidator.failed_tests self' = length ran ∧
        (∀ m, AtmosphericBoundaryValidator.test_results self' !! m
              = if decide (m ∈ ran)
                then AtmosphericBoundaryValidator.stored (tests m)
                else None) ∧
        AtmosphericBoundaryValidator.errors self' = []
  end.
Proof.
  unfold AtmosphericBoundaryValidator.run_all_tests. cbn zeta.
  destruct (run_several_spec tests AtmosphericBoundaryValidator.test_names
              (AtmosphericBoundaryValidator.reset_results self))
    as (ran & rest & E & Fr & Hc & Hp & Hf & He & _ & Hin & Hout).
  pose proof (count_passes tests ran) as Hn.
  cbn zeta in Hp, Hf, He, Hin, Hout.
  destruct (AtmosphericBoundaryValidator.run_several _ _ _) as [s' [[]|e]].
  all: cbn [fst snd] in *.
  all: cbn [AtmosphericBoundaryValidator.reset_results
            AtmosphericBoundaryValidator.passed_tests
            AtmosphericBoundaryValidator.failed_tests
            AtmosphericBoundaryValidator.errors
            AtmosphericBoundaryValidator.test_results] in Hp, Hf, He, Hout.
  all: assert (∀ m, AtmosphericBoundaryValidator.test_results s' !! m
                    = if decide (m ∈ ran)
                      then AtmosphericBoundaryValidator.stored (tests m)
                      else None) as Hlookup
         by (intros m; case_decide; [by apply Hin|by rewrite Hout]).
  - subst rest. rewrite app_nil_r in E. subst ran.
    change (length AtmosphericBoundaryValidator.test_names) with 20 in Hn.
    cbn [AtmosphericBoundaryValidator.summary_total_tests
         AtmosphericBoundaryValidator.summary_passed_tests
         AtmosphericBoundaryValidator.summary_failed_tests
         AtmosphericBoundaryValidator.summary_all_passed
         AtmosphericBoundaryValidator.summary_results].
    assert ((AtmosphericBoundaryValidator.failed_tests s' =? 0) = true
            ↔ Forall (λ n, AtmosphericBoundaryValidator.passes (tests n) = true)
                     AtmosphericBoundaryValidator.test_names) as Hall.
    { rewrite Hf, Nat.eqb_eq. cbn [Nat.add]. apply no_failure_iff. }
    split; [done|]. split; [lia|]. split; [lia|]. split; [lia|].
    split; [done|]. split.
    { rewrite Hall, Forall_forall. split.
      - intros Hpass n d Hd. rewrite Hlookup in Hd. case_decide; [|done].
        rewrite (stored_passed _ _ Hd). by apply Hpass.
      - intros Hres n Hi.
        pose proof (proj1 (Forall_forall _ _) Fr n Hi) as Hesc.
        cbn beta in Hesc.
        destruct (AtmosphericBoundaryValidator.stored (tests n)) as [d|] eqn:Hd;
          [|by destruct (tests n)].
        rewrite <- (stored_passed _ _ Hd). apply (Hres n).
        rewrite Hlookup. by rewrite decide_True. }
    split; [done|]. split; [|done].
    assert (dom (AtmosphericBoundaryValidator.test_results s')
            = list_to_set AtmosphericBoundaryValidator.test_names) as Hdom.
    { apply set_eq. intros n. rewrite elem_of_dom, Hlookup, elem_of_list_to_set.
      case_decide as Hi; [|split; [by intros [? ?]|done]].
      split; [done|]. intros _.
      pose proof (proj1 (Forall_forall _ _) Fr n Hi) as Hesc. cbn beta in Hesc.
      destruct (tests n); [by eexists|by eexists|done]. }
    rewrite <- size_dom, Hdom. by vm_compute.
  - destruct Hc as (n & rest' & -> & Hn').
    exists ran, n, rest'. repeat split; try done; lia.
Qed.
(** * [calc_ionization] *)

Section Calc_ionization_facts.
Context {A : Type} `{Scalar A} `{Literals A}.

Lemma for_each_app {S : Type} (body : S → nat → result S) s l1 l2 :
  for_each body s (l1 ++ l2) = s' ← for_each body s l1; for_each body s' l2.
Proof.
  revert s. induction l1 as [|i l1 IH]; intros s; [done|].
  cbn [app for_each]. destruct (body s i) as [s'|e]; cbn [mbind result_bind];
    [apply IH|done].
Qed.

Lemma broadcast_shape_same n : broadcast_shape n n = Ok n.
Proof. unfold broadcast_shape. by rewrite Nat.eqb_refl. Qed.

Lemma stretch_same {B : Type} (l : list B) n : length l = n → stretch n l = l.
Proof. intros <-. by destruct l as [|x [|y l]]. Qed.

Lemma broadcast1_same (op : A → A → A) (a b : list A) :
  length a = length b → broadcast1 op a b = Ok (zip_with op a b).
Proof.
  intros E. unfold broadcast1. rewrite E, broadcast_shape_same.
  cbn [mbind result_bind]. by rewrite !stretch_same.
Qed.

Lemma zip_rows_same (op : A → A → A) c (ra rb : list (list A)) :
  Forall (λ r, length r = c) ra → Forall (λ r, length r = c) rb →
  zip_with (λ x y : list A, zip_with op (stretch c x) (stretch c y)) ra rb
  = zip_with (zip_with op) ra rb.
Proof.
  intros Ha. revert rb. induction Ha as [|x ra Hx Ha IH]; intros rb Hb; [done|].
  destruct Hb as [|y rb Hy Hb]; [done|]. cbn [zip_with].
  rewrite (stretch_same x), (stretch_same y) by done. f_equal. by apply IH.
Qed.

Lemma zip_rows_shaped (op : A → A → A) n c (ra rb : list (list A)) :
  length ra = n → length rb = n →
  Forall (λ r, length r = c) ra → Forall (λ r, length r = c) rb →
  length (zip_with (zip_with op) ra rb) = n ∧
  Forall (λ r, length r = c) (zip_with (zip_with op) ra rb).
Proof.
  intros La Lb Ha Hb. split; [rewrite length_zip_with; lia|].
  clear La Lb. revert rb Hb.
  induction Ha as [|x ra Hx Ha IH]; intros rb Hb; [constructor|].
  destruct Hb as [|y rb Hy Hb]; [constructor|]. cbn [zip_with].
  constructor; [|by apply IH]. rewrite length_zip_with. lia.
Qed.

Lemma broadcast2_same (op : A → A → A) (a b : array2 A) :
  well_shaped a → well_shaped b → shape0 a = shape0 b → shape1 a = shape1 b →
  broadcast2 op a b =
    Ok (mk_array2 (shape0 a) (shape1 a)
          (zip_with (zip_with op) (rows a) (rows b))).
Proof.
  intros [La Ha] [Lb Hb] E0 E1. unfold broadcast2.
  rewrite <- E0, <- E1, !broadcast_shape_same. cbn [mbind result_bind].
  rewrite (stretch_same (rows a)), (stretch_same (rows b)) by congruence.
  rewrite (zip_rows_same op (shape1 a)); [done|done|]. by rewrite E1.
Qed.

Lemma lookup_zip_rows (op : A → A → A) (ra rb : list (list A)) i j :
  (row ← zip_with (zip_with op) ra rb !! i; row !! j)
  = x ← (row ← ra !! i; row !! j); y ← (row ← rb !! i; row !! j); Some (op x y).
Proof.
  rewrite lookup_zip_with.
  destruct (ra !! i) as [r1|], (rb !! i) as [r2|]; cbn; try done.
  - by rewrite lookup_zip_with.
  - by destruct (r1 !! j).
Qed.

Lemma entry_is_Some (a : array2 A) i j :
  well_shaped a → i < shape0 a → j < shape1 a → is_Some (entry a i j).
Proof.
  intros [La Fa] Hi Hj. unfold entry.
  destruct (lookup_lt_is_Some_2 (rows a) i) as [row Hrow]; [lia|].
  rewrite Hrow. cbn. apply lookup_lt_is_Some_2.
  by rewrite (proj1 (Forall_lookup _ _) Fa i row Hrow).
Qed.

Lemma column_lookup_rows (l : list (list A)) c i j :
  Forall (λ r, length r = c) l → j < c →
  omap (λ row : list A, row !! j) l !! i = (row ← l !! i; row !! j)
  ∧ length (omap (λ row : list A, row !! j) l) = length l.
Proof.
  intros Fl Hj. revert i. induction Fl as [|row l Hrow Fl IH]; intros i; [done|].
  destruct (lookup_lt_is_Some_2 row j) as [x Hx]; [lia|].
  cbn [omap list_omap]. rewrite Hx. destruct (IH 0) as [_ IHl].
  split; [|by cbn; rewrite IHl].
  destruct i as [|i]; [done|]. cbn. apply IH.
Qed.

Lemma column_lookup (a : array2 A) i j :
  well_shaped a → j < shape1 a → column a j !! i = entry a i j.
Proof. intros [_ Fa] Hj. by apply (column_lookup_rows _ (shape1 a)). Qed.

Lemma length_column (a : array2 A) j :
  well_shaped a → j < shape1 a → length (column a j) = shape0 a.
Proof.
  intros [La Fa] Hj. rewrite <- La.
  by apply (column_lookup_rows _ (shape1 a) 0).
Qed.

(** An iteration at an index the altitude array does not have fails. *)
Lemma calc_ionization_body_short (z_cm : list A) (q_tot s : array2 A) i :
  length z_cm ≤ i → calc_ionization_body z_cm q_tot s i = Raise IndexError.
Proof.
  intros Hi. unfold calc_ionization_body.
  by rewrite (getitem_Raise z_cm i) by (by apply lookup_ge_None_2).
Qed.

Lemma entry_lt (a : array2 A) i j (v : A) :
  well_shaped a → entry a i j = Some v → i < shape0 a ∧ j < shape1 a.
Proof.
  intros [La Fa] Hv. unfold entry in Hv.
  apply bind_Some in Hv as (row & Hrow & Hv).
  pose proof (proj1 (Forall_lookup _ _) Fa i row Hrow) as Lrow. cbn beta in Lrow.
  apply lookup_lt_Some in Hrow, Hv. lia.
Qed.

Section Loop.
Context (z_cm : list A) (q_tot : array2 A).
Hypothesis Hq : well_shaped q_tot.

Local Abbreviation next dz cp qi qp :=
  (zip_with add cp ((λ x : A, mul (mul half x) dz) <$> zip_with add qi qp)).

Local Abbreviation invariant k s :=
  (shape0 s = shape0 q_tot ∧ shape1 s = shape1 q_tot ∧
   length (rows s) = shape0 q_tot ∧
   Forall (λ r : list A, length r = shape1 q_tot) (rows s) ∧
   (0 < shape0 q_tot →
    rows s !! 0 = Some (replicate (shape1 q_tot) (zero : A))) ∧
   (∀ i cp qi qp zi zp, i < k →
      rows s !! i = Some cp →
      rows q_tot !! S i = Some qi → rows q_tot !! i = Some qp →
      z_cm !! S i = Some zi → z_cm !! i = Some zp →
      rows s !! S i = Some (next (sub zi zp) cp qi qp))).

(** One iteration keeps the invariant, as long as the altitude exists. *)
Lemma calc_ionization_body_step k s :
  invariant k s → S k < shape0 q_tot → S k < length z_cm →
  ∃ s', calc_ionization_body z_cm q_tot s (S k) = Ok s' ∧ invariant (S k) s'.
Proof.
  intros (S0 & S1 & L & F & Z & R) Hk Hz. destruct Hq as [Lq Fq].
  destruct (lookup_lt_is_Some_2 z_cm (S k)) as [zi Hzi]; [lia|].
  destruct (lookup_lt_is_Some_2 z_cm k) as [zp Hzp]; [lia|].
  destruct (lookup_lt_is_Some_2 (rows s) k) as [cp Hcp]; [lia|].
  destruct (lookup_lt_is_Some_2 (rows q_tot) (S k)) as [qi Hqi]; [lia|].
  destruct (lookup_lt_is_Some_2 (rows q_tot) k) as [qp Hqp]; [lia|].
  pose proof (proj1 (Forall_lookup _ _) F k cp Hcp) as Lcp.
  pose proof (proj1 (Forall_lookup _ _) Fq (S k) qi Hqi) as Lqi.
  pose proof (proj1 (Forall_lookup _ _) Fq k qp Hqp) as Lqp.
  cbn beta in Lcp, Lqi, Lqp.
  assert (length (next (sub zi zp) cp qi qp) = shape1 q_tot) as Lv.
  { rewrite length_zip_with, length_fmap, length_zip_with. lia. }
  exists (mk_array2 (shape0 q_tot) (shape1 q_tot)
            (<[S k := next (sub zi zp) cp qi qp]> (rows s))).
  split.
  - unfold calc_ionization_body. replace (S k - 1) with k by lia.
    rewrite (getitem_Ok _ _ _ Hzi), (getitem_Ok _ _ _ Hzp).
    cbn [mbind result_bind]. unfold getrow.
    rewrite !decide_True by lia.
    unfold getitem at 1 2 3. rewrite Hcp, Hqi, Hqp.
    cbn [mbind result_bind].
    rewrite (broadcast1_same add qi qp) by lia. cbn [mbind result_bind].
    rewrite broadcast1_same.
    2:{ rewrite length_fmap, length_zip_with. lia. }
    cbn [mbind result_bind]. unfold setrow.
    rewrite decide_True by lia. rewrite decide_True by (left; lia).
    rewrite S0, S1. by rewrite stretch_same.
  - cbn [shape0 shape1 rows]. rewrite length_insert.
    repeat split; try done.
    + apply Forall_insert; done.
    + intros Hpos. rewrite list_lookup_insert_ne by lia. by apply Z.
    + intros i cp' qi' qp' zi' zp' Hi Hcp' Hqi' Hqp' Hzi' Hzp'.
      destruct (decide (i = k)) as [->|Hne].
      * rewrite list_lookup_insert_ne in Hcp' by lia.
        rewrite list_lookup_insert_eq by lia.
        assert (cp' = cp) as -> by congruence.
        assert (qi' = qi) as -> by congruence.
        assert (qp' = qp) as -> by congruence.
        assert (zi' = zi) as -> by congruence.
        by assert (zp' = zp) as -> by congruence.
      * rewrite list_lookup_insert_ne in Hcp' by lia.
        rewrite list_lookup_insert_ne by lia.
        apply (R i cp' qi' qp' zi' zp'); try done. lia.
Qed.

(** The first [k] iterations succeed and establish the invariant. *)
Lemma calc_ionization_loop k :
  k ≤ shape0 q_tot - 1 → k ≤ length z_cm - 1 →
  ∃ s, for_each (calc_ionization_body z_cm q_tot)
         (mk_array2 (shape0 q_tot) (shape1 q_tot)
            (replicate (shape0 q_tot) (replicate (shape1 q_tot) zero)))
         (seq 1 k) = Ok s ∧ invariant k s.
Proof.
  induction k as [|k IH]; intros Hk Hz.
  { eexists. split; [done|]. cbn [shape0 shape1 rows].
    rewrite length_replicate. repeat split; try done.
    - apply Forall_replicate, length_replicate.
    - intros Hpos. by apply lookup_replicate_2.
    - intros; lia. }
  destruct IH as (s & Hs & Inv); [lia|lia|].
  destruct (calc_ionization_body_step k s Inv) as (s' & Hs' & Inv'); [lia|lia|].
  exists s'. split; [|done].
  rewrite seq_S, for_each_app, Hs. cbn [mbind result_bind for_each Nat.add].
  by rewrite Hs'.
Qed.

End Loop.
End Calc_ionization_facts.

Section Calc_ionization_result.
Context {A : Type} `{Scalar A} `{Literals A}.
Context (Qe z : list A) (f : array2 A) (H_ : list A).

Local Abbreviation q_tot_rows :=
  (zip_with (zip_with div)
     (zip_with (zip_with mul)
        (replicate (shape0 f) ((λ x : A, div x IONIZATION_ENERGY_KEV) <$> Qe))
        (rows f))
     ((λ h : A, replicate (shape1 f) h) <$> H_)).

Local Abbreviation q_tot_of :=
  (mk_array2 (shape0 f) (shape1 f) q_tot_rows).

Local Abbreviation z_cm_of := ((λ x : A, mul x lit_1e5) <$> z).

Hypothesis Hf : well_shaped f.
Hypothesis HQe : length Qe = shape1 f.
Hypothesis HH : length H_ = shape0 f.

Lemma scaled_shaped :
  length (replicate (shape0 f) ((λ x : A, div x IONIZATION_ENERGY_KEV) <$> Qe))
    = shape0 f ∧
  Forall (λ r : list A, length r = shape1 f)
    (replicate (shape0 f) ((λ x : A, div x IONIZATION_ENERGY_KEV) <$> Qe)).
Proof.
  split; [apply length_replicate|].
  apply Forall_replicate. by rewrite length_fmap.
Qed.

Lemma H_grid_shaped :
  length ((λ h : A, replicate (shape1 f) h) <$> H_) = shape0 f ∧
  Forall (λ r : list A, length r = shape1 f)
    ((λ h : A, replicate (shape1 f) h) <$> H_).
Proof.
  split; [by rewrite length_fmap|].
  apply Forall_fmap, Forall_forall. intros h _. apply length_replicate.
Qed.

Lemma product_shaped :
  length (zip_with (zip_with mul)
            (replicate (shape0 f) ((λ x : A, div x IONIZATION_ENERGY_KEV) <$> Qe))
            (rows f)) = shape0 f ∧
  Forall (λ r : list A, length r = shape1 f)
    (zip_with (zip_with mul)
       (replicate (shape0 f) ((λ x : A, div x IONIZATION_ENERGY_KEV) <$> Qe))
       (rows f)).
Proof.
  destruct Hf as [Lf Ff], scaled_shaped as [Ls Fs].
  by apply zip_rows_shaped.
Qed.

Lemma q_tot_well_shaped : well_shaped q_tot_of.
Proof.
  destruct product_shaped as [Lp Fp], H_grid_shaped as [Lh Fh].
  unfold well_shaped. cbn [shape0 shape1 rows]. by apply zip_rows_shaped.
Qed.

(** With inputs of matching shapes the two broadcasts succeed, and what is
    left of [calc_ionization] is its loop. *)
Lemma calc_ionization_unfold :
  calc_ionization Qe z f H_ =
    q_cum ← for_each (calc_ionization_body z_cm_of q_tot_of)
              (mk_array2 (shape0 f) (shape1 f)
                 (replicate (shape0 f) (replicate (shape1 f) zero)))
              (seq 1 (shape0 f - 1));
    Ok (q_cum, q_tot_of).
Proof.
  destruct scaled_shaped as [Ls Fs], H_grid_shaped as [Lh Fh].
  destruct product_shaped as [Lp Fp].
  unfold calc_ionization. cbn zeta. cbn [shape0 shape1 rows].
  rewrite fmap_replicate, HQe, HH.
  rewrite broadcast2_same; [|done|done|done|done].
  cbn [mbind result_bind shape0 shape1 rows].
  by rewrite broadcast2_same.
Qed.

Lemma q_tot_entry i j (q x h : A) :
  Qe !! j = Some q → entry f i j = Some x → H_ !! i = Some h →
  entry q_tot_of i j = Some (div (mul (div q IONIZATION_ENERGY_KEV) x) h).
Proof.
  intros Hq Hx Hh. unfold entry in *. cbn [rows].
  rewrite !lookup_zip_rows, Hx.
  apply bind_Some in Hx as (row & Hrow & _).
  apply lookup_lt_Some in Hrow. pose proof (lookup_lt_Some _ _ _ Hq) as Lj.
  destruct Hf as [Lf _].
  rewrite lookup_replicate_2 by lia. cbn.
  rewrite (list_lookup_fmap _ Qe), Hq. cbn.
  rewrite (list_lookup_fmap _ H_), Hh. cbn.
  by rewrite lookup_replicate_2 by lia.
Qed.

(** What the loop leaves, entry by entry, when it has run to its end. *)
Lemma calc_ionization_run :
  shape0 f ≤ length z →
  ∃ q_cum, calc_ionization Qe z f H_ = Ok (q_cum, q_tot_of) ∧
    well_shaped q_cum ∧
    shape0 q_cum = shape0 f ∧ shape1 q_cum = shape1 f ∧
    (∀ j, 0 < shape0 f → j < shape1 f → entry q_cum 0 j = Some zero) ∧
    (∀ i j (c q1 q0 z1 z0 : A),
       entry q_cum i j = Some c →
       entry q_tot_of (S i) j = Some q1 → entry q_tot_of i j = Some q0 →
       z !! S i = Some z1 → z !! i = Some z0 →
       entry q_cum (S i) j =
         Some (add c (mul (mul half (add q1 q0))
                          (sub (mul z1 lit_1e5) (mul z0 lit_1e5))))).
Proof.
  intros Hz. rewrite calc_ionization_unfold.
  pose proof q_tot_well_shaped as Hq.
  destruct (calc_ionization_loop z_cm_of q_tot_of Hq (shape0 f - 1))
    as (s & Hs & S0 & S1 & L & F & Z & R).
  { cbn [shape0]. lia. }
  { rewrite length_fmap. lia. }
  cbn [shape0 shape1] in *. rewrite Hs. cbn [mbind result_bind].
  exists s. split; [done|].
  split. { split; [by rewrite S0|by rewrite S1]. }
  split; [done|]. split; [done|]. split.
  - intros j Hpos Hj. unfold entry. rewrite (Z Hpos). cbn.
    by apply lookup_replicate_2.
  - intros i j c q1 q0 z1 z0 Hc Hq1 Hq0 Hz1 Hz0. unfold entry in *.
    apply bind_Some in Hc as (cp & Hcp & Hc).
    apply bind_Some in Hq1 as (qi & Hqi & Hq1).
    apply bind_Some in Hq0 as (qp & Hqp & Hq0).
    assert (i < shape0 f - 1) as Hi.
    { pose proof (lookup_lt_Some _ _ _ Hqi) as Li. destruct Hq as [Lq _].
      cbn [shape0 rows] in Lq, Li. lia. }
    rewrite (R i cp qi qp (mul z1 lit_1e5) (mul z0 lit_1e5)); try done.
    + cbn. by rewrite lookup_zip_with, list_lookup_fmap, lookup_zip_with,
        Hc, Hq1, Hq0.
    + by rewrite list_lookup_fmap, Hz1.
    + by rewrite list_lookup_fmap, Hz0.
Qed.

(** The loop stops with an [IndexError] at the first index the altitude
    array does not have. *)
Lemma calc_ionization_short :
  length z < shape0 f → 2 ≤ shape0 f →
  calc_ionization Qe z f H_ = Raise IndexError.
Proof.
  intros Hz Hnz. rewrite calc_ionization_unfold.
  pose proof q_tot_well_shaped as Hq.
  destruct (calc_ionization_loop z_cm_of q_tot_of Hq (length z - 1))
    as (s & Hs & _).
  { cbn [shape0]. lia. }
  { rewrite length_fmap. lia. }
  replace (shape0 f - 1)
    with ((length z - 1) + S (shape0 f - 2 - (length z - 1))) by lia.
  cbn [shape0 shape1] in Hs.
  rewrite seq_app, for_each_app, Hs. cbn [mbind result_bind seq for_each].
  by rewrite calc_ionization_body_short by (rewrite length_fmap; lia).
Qed.
End Calc_ionization_result.

(** The postcondition of [calc_ionization] on inputs of matching shapes. *)
Lemma calc_ionization_postcondition {A : Type} `{Scalar A} `{Literals A}
    (Qe z : list A) (f : array2 A) (H_ : list A) :
  well_shaped f → length Qe = shape1 f → length H_ = shape0 f →
  shape0 f ≤ length z →
  ∃ q_cum q_tot, calc_ionization Qe z f H_ = Ok (q_cum, q_tot) ∧
    well_shaped q_cum ∧ well_shaped q_tot ∧
    shape0 q_cum = shape0 f ∧ shape1 q_cum = shape1 f ∧
    shape0 q_tot = shape0 f ∧ shape1 q_tot = shape1 f ∧
    (∀ i j (q x h : A),
       Qe !! j = Some q → entry f i j = Some x → H_ !! i = Some h →
       entry q_tot i j = Some (div (mul (div q IONIZATION_ENERGY_KEV) x) h)) ∧
    (∀ j, 0 < shape0 f → j < shape1 f → entry q_cum 0 j = Some zero) ∧
    (∀ i j (c q1 q0 z1 z0 : A),
       entry q_cum i j = Some c →
       entry q_tot (S i) j = Some q1 → entry q_tot i j = Some q0 →
       z !! S i = Some z1 → z !! i = Some z0 →
       entry q_cum (S i) j =
         Some (add c (mul (mul half (add q1 q0))
                          (sub (mul z1 lit_1e5) (mul z0 lit_1e5))))).
Proof.
  intros Hf HQe HH Hz.
  destruct (calc_ionization_run Qe z f H_ Hf HQe HH Hz)
    as (q_cum & Hrun & Wc & S0 & S1 & Z & R).
  eexists q_cum, _. split; [exact Hrun|].
  split; [done|]. split; [by apply q_tot_well_shaped|].
  repeat split; try done.
  intros i j q x h. by apply q_tot_entry.
Qed.

(** X18.  With inputs of matching shapes ([f] an [nz] by [nE] array, [nE]
    fluxes, [nz] scale heights, at least [nz] altitudes) [calc_ionization]
    returns two [nz] by [nE] arrays, in every arithmetic: [q_tot[i, j]] is
    [(Qe[j] / 0.035) * f[i, j] / H[i]], the row 0 of [q_cum] is zero, and
    every later row adds to the row before it the trapezoid
    [0.5 * (q_tot[i, j] + q_tot[i-1, j]) * (z[i]*1e5 - z[i-1]*1e5)].  The
    accumulation starts at index 0 and altitudes beyond [nz] are not read. *)
Theorem calc_ionization_returns {A : Type} `{Scalar A} `{Literals A}
    (Qe z : list A) (f : array2 A) (H_ : list A) :
  well_shaped f → length Qe = shape1 f → length H_ = shape0 f →
  shape0 f ≤ length z →
  ∃ q_cum q_tot, calc_ionization Qe z f H_ = Ok (q_cum, q_tot) ∧
    well_shaped q_cum ∧ well_shaped q_tot ∧
    shape0 q_cum = shape0 f ∧ shape1 q_cum = shape1 f ∧
    shape0 q_tot = shape0 f ∧ shape1 q_tot = shape1 f ∧
    (∀ i j (q x h : A),
       Qe !! j = Some q → entry f i j = Some x → H_ !! i = Some h →
       entry q_tot i j = Some (div (mul (div q IONIZATION_ENERGY_KEV) x) h)) ∧
    (∀ j, 0 < shape0 f → j < shape1 f → entry q_cum 0 j = Some zero) ∧
    (∀ i j (c q1 q0 z1 z0 : A),
       entry q_cum i j = Some c →
       entry q_tot (S i) j = Some q1 → entry q_tot i j = Some q0 →
       z !! S i = Some z1 → z !! i = Some z0 →
       entry q_cum (S i) j =
         Some (add c (mul (mul half (add q1 q0))
                          (sub (mul z1 lit_1e5) (mul z0 lit_1e5))))).
Proof. apply calc_ionization_postcondition. Qed.

(** X19.  When the altitude array is shorter than the [nz] rows of [f] (and
    there are at least two rows) [calc_ionization] raises [IndexError]:
    the loop reads [z_cm[i]] for every row index. *)
Theorem calc_ionization_index_error {A : Type} `{Scalar A} `{Literals A}
    (Qe z : list A) (f : array2 A) (H_ : list A) :
  well_shaped f → length Qe = shape1 f → length H_ = shape0 f →
  length z < shape0 f → 2 ≤ shape0 f →
  calc_ionization Qe z f H_ = Raise IndexError.
Proof. intros. by apply calc_ionization_short. Qed.

(** X20.  A flux array whose length is neither 1 nor the number [nE] of
    columns of [f] (when [nE] is not 1), or a scale-height array whose
    length is neither 1 nor the number [nz] of rows (when [nz] is not 1),
    makes [calc_ionization] raise [ValueError]: the arrays cannot be
    broadcast together. *)
Theorem calc_ionization_value_error {A : Type} `{Scalar A} `{Literals A}
    (Qe z : list A) (f : array2 A) (H_ : list A) :
  (length Qe ≠ shape1 f ∧ length Qe ≠ 1 ∧ shape1 f ≠ 1) ∨
  (length H_ ≠ shape0 f ∧ length H_ ≠ 1 ∧ shape0 f ≠ 1) →
  calc_ionization Qe z f H_ = Raise ValueError.
Proof.
  intros Hbad. unfold calc_ionization, broadcast2. cbn zeta.
  cbn [shape0 shape1 rows]. rewrite broadcast_shape_same.
  cbn [mbind result_bind].
  destruct (broadcast_shape (length Qe) (shape1 f)) as [c|e] eqn:Hc.
  2:{ unfold broadcast_shape in Hc. repeat case_match; by simplify_eq. }
  cbn [mbind result_bind shape0 shape1 rows].
  destruct Hbad as [(H1 & H2 & H3)|(H1 & H2 & H3)].
  { unfold broadcast_shape in Hc.
    apply Nat.eqb_neq in H1, H2, H3. by rewrite H1, H2, H3 in Hc. }
  assert (broadcast_shape (shape0 f) (length H_) = Raise ValueError) as ->; [|done].
  unfold broadcast_shape.
  assert (shape0 f ≠ length H_) as H1' by lia.
  apply Nat.eqb_neq in H1', H2, H3. by rewrite H1', H2, H3.
Qed.

Lemma calc_ionization_returns_witness :
  let Qe := B64.of_Z <$> [7; 14]%Z in
  let z := B64.of_Z <$> [3; 2; 1]%Z in
  let f := mk_array2 3 2 [B64.of_Z <$> [1; 2]%Z; B64.of_Z <$> [3; 4]%Z;
                          B64.of_Z <$> [5; 6]%Z] in
  let H_ := B64.of_Z <$> [1; 2; 4]%Z in
  well_shaped f ∧ length Qe = shape1 f ∧ length H_ = shape0 f ∧
  shape0 f ≤ length z ∧
  ∃ q_cum q_tot, calc_ionization Qe z f H_ = Ok (q_cum, q_tot) ∧
    well_shaped q_cum ∧ well_shaped q_tot ∧
    shape0 q_cum = shape0 f ∧ shape1 q_cum = shape1 f ∧
    shape0 q_tot = shape0 f ∧ shape1 q_tot = shape1 f ∧
    (∀ i j (q x h : B64.float),
       Qe !! j = Some q → entry f i j = Some x → H_ !! i = Some h →
       entry q_tot i j = Some (div (mul (div q IONIZATION_ENERGY_KEV) x) h)) ∧
    (∀ j, 0 < shape0 f → j < shape1 f → entry q_cum 0 j = Some zero) ∧
    (∀ i j (c q1 q0 z1 z0 : B64.float),
       entry q_cum i j = Some c →
       entry q_tot (S i) j = Some q1 → entry q_tot i j = Some q0 →
       z !! S i = Some z1 → z !! i = Some z0 →
       entry q_cum (S i) j =
         Some (add c (mul (mul half (add q1 q0))
                          (sub (mul z1 lit_1e5) (mul z0 lit_1e5))))).
Proof.
  cbv zeta.
  split; [split; [reflexivity|repeat constructor]|].
  split; [reflexivity|]. split; [reflexivity|]. split; [simpl; lia|].
  apply (calc_ionization_returns
           (B64.of_Z <$> [7; 14]%Z) (B64.of_Z <$> [3; 2; 1]%Z)
           (mk_array2 3 2 [B64.of_Z <$> [1; 2]%Z; B64.of_Z <$> [3; 4]%Z;
                           B64.of_Z <$> [5; 6]%Z])
           (B64.of_Z <$> [1; 2; 4]%Z)).
  - split; [reflexivity|repeat constructor].
  - reflexivity.
  - reflexivity.
  - simpl; lia.
Defined.

Lemma calc_ionization_index_error_witness :
  let Qe := B64.of_Z <$> [7; 14]%Z in
  let z := B64.of_Z <$> [3; 2]%Z in
  let f := mk_array2 3 2 [B64.of_Z <$> [1; 2]%Z; B64.of_Z <$> [3; 4]%Z;
                          B64.of_Z <$> [5; 6]%Z] in
  let H_ := B64.of_Z <$> [1; 2; 4]%Z in
  well_shaped f ∧ length Qe = shape1 f ∧ length H_ = shape0 f ∧
  length z < shape0 f ∧ 2 ≤ shape0 f ∧
  calc_ionization Qe z f H_ = Raise IndexError.
Proof.
  cbv zeta.
  split; [split; [reflexivity|repeat constructor]|].
  split; [reflexivity|]. split; [reflexivity|].
  split; [simpl; lia|]. split; [simpl; lia|].
  apply (calc_ionization_index_error
           (B64.of_Z <$> [7; 14]%Z) (B64.of_Z <$> [3; 2]%Z)
           (mk_array2 3 2 [B64.of_Z <$> [1; 2]%Z; B64.of_Z <$> [3; 4]%Z;
                           B64.of_Z <$> [5; 6]%Z])
           (B64.of_Z <$> [1; 2; 4]%Z)).
  - split; [reflexivity|repeat constructor].
  - reflexivity.
  - reflexivity.
  - simpl; lia.
  - simpl; lia.
Defined.

Lemma calc_ionization_value_error_witness :
  let Qe := B64.of_Z <$> [7; 14; 21]%Z in
  let z := B64.of_Z <$> [3; 2; 1]%Z in
  let f := mk_array2 3 2 [B64.of_Z <$> [1; 2]%Z; B64.of_Z <$> [3; 4]%Z;
                          B64.of_Z <$> [5; 6]%Z] in
  let H_ := B64.of_Z <$> [1; 2; 4]%Z in
  ((length Qe ≠ shape1 f ∧ length Qe ≠ 1 ∧ shape1 f ≠ 1) ∨
   (length H_ ≠ shape0 f ∧ length H_ ≠ 1 ∧ shape0 f ≠ 1)) ∧
  calc_ionization Qe z f H_ = Raise ValueError.
Proof.
  cbv zeta.
  split; [left; repeat split; simpl; lia|].
  apply (calc_ionization_value_error
           (B64.of_Z <$> [7; 14; 21]%Z) (B64.of_Z <$> [3; 2; 1]%Z)
           (mk_array2 3 2 [B64.of_Z <$> [1; 2]%Z; B64.of_Z <$> [3; 4]%Z;
                           B64.of_Z <$> [5; 6]%Z])
           (B64.of_Z <$> [1; 2; 4]%Z)).
  left; repeat split; simpl; lia.
Defined.

Section Calc_ionization_exact.
Import Exact Exact_facts.
Local Open Scope Qc_scope.

Lemma inv_nonneg (h : Qc) : 0 < h → 0 <= / h.
Proof.
  intros Hh. unfold Qcle, Qclt in *.
  change (this (/ h)) with (Qred (/ this h)). rewrite Qred_correct.
  by apply Qinv_le_0_compat, Qlt_le_weak.
Qed.

Lemma lit_1e5_pos : 0 < (lit_1e5 : Qc).
Proof. done. Qed.

Lemma IONIZATION_ENERGY_KEV_pos : 0 < (IONIZATION_ENERGY_KEV : Qc).
Proof. done. Qed.

Lemma scale_no_zero_step (k : Qc) (z : list Qc) :
  k ≠ 0 → no_zero_step z = true →
  no_zero_step ((λ x : Qc, mul x k) <$> z) = true.
Proof.
  intros Hk. induction z as [|z0 zs IH]; [done|].
  destruct zs as [|z1 zs]; [done|].
  rewrite no_zero_step_cons2. intros [Hs Hr]%andb_true_iff.
  change (no_zero_step (mul z0 k :: mul z1 k :: ((λ x : Qc, mul x k) <$> zs))
          = true).
  rewrite no_zero_step_cons2. apply andb_true_iff. split; [|by apply IH].
  apply step_passes_guard. apply step_passes_guard in Hs. to_Qc.
  intros E. apply Hs.
  rewrite <- (Qcdiv_mult_l z0 k Hk), E. by apply Qcdiv_mult_l.
Qed.

Lemma decreasing_step (z : list Qc) i (a b : Qc) :
  decreasing z = true → z !! i = Some a → z !! S i = Some b → b < a.
Proof.
  revert i. induction z as [|z0 zs IH]; intros i Hd Ha Hb; [done|].
  destruct zs as [|z1 zs]; [done|].
  rewrite decreasing_cons2 in Hd. apply andb_true_iff in Hd as [Hlt Hd].
  destruct i as [|i]; cbn in Ha, Hb.
  - simplify_eq. by apply ltb_true.
  - by apply (IH i).
Qed.

Lemma increasing_step (z : list Qc) i (a b : Qc) :
  increasing z = true → z !! i = Some a → z !! S i = Some b → a < b.
Proof.
  revert i. induction z as [|z0 zs IH]; intros i Hd Ha Hb; [done|].
  destruct zs as [|z1 zs]; [done|].
  rewrite increasing_cons2 in Hd. apply andb_true_iff in Hd as [Hlt Hd].
  destruct i as [|i]; cbn in Ha, Hb.
  - simplify_eq. by apply ltb_true.
  - by apply (IH i).
Qed.

(** The sign of one trapezoid of [calc_ionization]. *)
Lemma area_nonneg (q0 q1 z0 z1 k : Qc) :
  0 <= q0 → 0 <= q1 → z0 <= z1 → 0 <= k →
  0 <= Q2Qc (1 # 2) * (q1 + q0) * (z1 * k - z0 * k).
Proof.
  intros H0 H1 Hz Hk.
  replace (z1 * k - z0 * k) with ((z1 + - z0) * k) by ring.
  apply mult_nonneg; [apply mult_nonneg; [done|by apply plus_nonneg]|].
  apply mult_nonneg; [|done]. by apply Qcle_minus_iff in Hz.
Qed.

Lemma le_plus_nonneg (c t : Qc) : 0 <= t → c <= c + t.
Proof.
  intros Ht. apply Qcle_minus_iff.
  by replace (c + t + - c) with t by ring.
Qed.

Lemma plus_nonpos_le (c t : Qc) : 0 <= - t → c + t <= c.
Proof.
  intros Ht. apply Qcle_minus_iff.
  by replace (c + - (c + t)) with (- t) by ring.
Qed.

Lemma area_swap (q0 q1 z0 z1 k : Qc) :
  - (Q2Qc (1 # 2) * (q1 + q0) * (z1 * k - z0 * k))
  = Q2Qc (1 # 2) * (q1 + q0) * (z0 * k - z1 * k).
Proof. ring. Qed.

(** What follows holds of any pair of arrays that satisfies the recurrence
    of the loop of [calc_ionization]. *)
Section Recurrence.
Context (z : list Qc) (q_cum q_tot : array2 Qc).
Hypothesis Wc : well_shaped q_cum.
Hypothesis Wq : well_shaped q_tot.
Hypothesis S0 : shape0 q_cum = shape0 q_tot.
Hypothesis S1 : shape1 q_cum = shape1 q_tot.
Hypothesis Hz : (shape0 q_tot ≤ length z)%nat.
Hypothesis Z0 :
  ∀ j, (0 < shape0 q_tot)%nat → (j < shape1 q_tot)%nat →
       entry q_cum 0 j = Some 0.
Hypothesis R :
  ∀ i j (c q1 q0 z1 z0 : Qc),
    entry q_cum i j = Some c →
    entry q_tot (S i) j = Some q1 → entry q_tot i j = Some q0 →
    z !! S i = Some z1 → z !! i = Some z0 →
    entry q_cum (S i) j =
      Some (c + Q2Qc (1 # 2) * (q1 + q0) * (z1 * lit_1e5 - z0 * lit_1e5)).

(** The entries the recurrence at row [i+1] reads. *)
Lemma recurrence_step i j (c' : Qc) :
  entry q_cum (S i) j = Some c' →
  ∃ c q1 q0 z1 z0,
    entry q_cum i j = Some c ∧
    entry q_tot (S i) j = Some q1 ∧ entry q_tot i j = Some q0 ∧
    z !! S i = Some z1 ∧ z !! i = Some z0 ∧
    c' = c + Q2Qc (1 # 2) * (q1 + q0) * (z1 * lit_1e5 - z0 * lit_1e5).
Proof.
  intros Hc'. destruct (entry_lt _ _ _ _ Wc Hc') as [Hi Hj].
  destruct (entry_is_Some q_cum i j Wc) as [c Hc]; [lia|lia|].
  destruct (entry_is_Some q_tot (S i) j Wq) as [q1 Hq1]; [lia|lia|].
  destruct (entry_is_Some q_tot i j Wq) as [q0 Hq0]; [lia|lia|].
  destruct (lookup_lt_is_Some_2 z (S i)) as [z1 Hz1]; [lia|].
  destruct (lookup_lt_is_Some_2 z i) as [z0 Hz0]; [lia|].
  exists c, q1, q0, z1, z0. repeat split; try done.
  rewrite (R i j c q1 q0 z1 z0 Hc Hq1 Hq0 Hz1 Hz0) in Hc'. by simplify_eq.
Qed.

Hypothesis Hq : ∀ i j (v : Qc), entry q_tot i j = Some v → 0 <= v.

Lemma q_cum_step_decreasing i j (c c' : Qc) :
  decreasing z = true →
  entry q_cum i j = Some c → entry q_cum (S i) j = Some c' → c' <= c.
Proof.
  intros Hd Hc Hc'.
  destruct (recurrence_step i j c' Hc')
    as (c0 & q1 & q0 & z1 & z0 & Hc0 & Hq1 & Hq0 & Hz1 & Hz0 & ->).
  assert (c0 = c) as -> by congruence.
  apply plus_nonpos_le. rewrite area_swap. apply area_nonneg.
  - by apply (Hq i j).
  - by apply (Hq (S i) j).
  - by apply Qclt_le_weak, (decreasing_step z i).
  - apply Qclt_le_weak, lit_1e5_pos.
Qed.

Lemma q_cum_step_increasing i j (c c' : Qc) :
  increasing z = true →
  entry q_cum i j = Some c → entry q_cum (S i) j = Some c' → c <= c'.
Proof.
  intros Hd Hc Hc'.
  destruct (recurrence_step i j c' Hc')
    as (c0 & q1 & q0 & z1 & z0 & Hc0 & Hq1 & Hq0 & Hz1 & Hz0 & ->).
  assert (c0 = c) as -> by congruence.
  apply le_plus_nonneg, area_nonneg.
  - by apply (Hq i j).
  - by apply (Hq (S i) j).
  - by apply Qclt_le_weak, (increasing_step z i).
  - apply Qclt_le_weak, lit_1e5_pos.
Qed.

Lemma q_cum_nonpos i j (c : Qc) :
  decreasing z = true → entry q_cum i j = Some c → c <= 0.
Proof.
  intros Hd. revert c. induction i as [|i IH]; intros c Hc.
  - destruct (entry_lt _ _ _ _ Wc Hc) as [Hi Hj].
    rewrite Z0 in Hc by lia. by simplify_eq.
  - destruct (recurrence_step i j c Hc) as (c0 & _ & _ & _ & _ & Hc0 & _).
    apply Qcle_trans with c0; [|by apply IH].
    by apply (q_cum_step_decreasing i j).
Qed.

Lemma q_cum_nonneg i j (c : Qc) :
  increasing z = true → entry q_cum i j = Some c → 0 <= c.
Proof.
  intros Hd. revert c. induction i as [|i IH]; intros c Hc.
  - destruct (entry_lt _ _ _ _ Wc Hc) as [Hi Hj].
    rewrite Z0 in Hc by lia. by simplify_eq.
  - destruct (recurrence_step i j c Hc) as (c0 & _ & _ & _ & _ & Hc0 & _).
    apply Qcle_trans with c0; [by apply IH|].
    by apply (q_cum_step_increasing i j).
Qed.
End Recurrence.

Section Complement.
Context (z : list Qc) (q_cum q_tot : array2 Qc) (j : nat).
Hypothesis Wc : well_shaped q_cum.
Hypothesis Wq : well_shaped q_tot.
Hypothesis S0 : shape0 q_cum = shape0 q_tot.
Hypothesis S1 : shape1 q_cum = shape1 q_tot.
Hypothesis Hz : length z = shape0 q_tot.
Hypothesis Hj : (j < shape1 q_tot)%nat.
Hypothesis Z0 :
  ∀ j, (0 < shape0 q_tot)%nat → (j < shape1 q_tot)%nat →
       entry q_cum 0 j = Some 0.
Hypothesis R :
  ∀ i j (c q1 q0 z1 z0 : Qc),
    entry q_cum i j = Some c →
    entry q_tot (S i) j = Some q1 → entry q_tot i j = Some q0 →
    z !! S i = Some z1 → z !! i = Some z0 →
    entry q_cum (S i) j =
      Some (c + Q2Qc (1 # 2) * (q1 + q0) * (z1 * lit_1e5 - z0 * lit_1e5)).

Local Abbreviation z_cm := ((λ x : Qc, mul x lit_1e5) <$> z).
Local Abbreviation areas := (trapezoids z_cm (column q_tot j)).

(** The entry of [q_cum] at row [i] and the areas from row [i] on add up
    to the sum of all the areas. *)
Lemma q_cum_prefix i (c : Qc) :
  entry q_cum i j = Some c →
  c + sum_back (drop i areas) = sum_back areas.
Proof.
  revert c. induction i as [|i IH]; intros c Hc.
  - destruct (entry_lt _ _ _ _ Wc Hc) as [Hi _].
    rewrite Z0 in Hc by lia. simplify_eq. rewrite drop_0. ring.
  - assert (shape0 q_tot ≤ length z)%nat as Hz' by lia.
    destruct (recurrence_step z q_cum q_tot Wc Wq S0 S1 Hz' Z0 R i j c Hc)
      as (c0 & q1 & q0 & z1 & z0 & Hc0 & Hq1 & Hq0 & Hz1 & Hz0 & ->).
    rewrite <- (IH c0 Hc0).
    rewrite (drop_S areas (trapezoid (z0 * lit_1e5) (z1 * lit_1e5) q0 q1) i).
    2:{ apply trapezoids_lookup.
        - by rewrite list_lookup_fmap, Hz0.
        - by rewrite list_lookup_fmap, Hz1.
        - by rewrite column_lookup.
        - by rewrite column_lookup. }
    rewrite sum_back_cons. to_Qc. ring.
Qed.

Lemma q_cum_complement :
  no_zero_step z = true →
  ∃ r, integrate_from_top z_cm (column q_tot j) = Ok r ∧
       ∀ i, (i < shape0 q_tot)%nat →
            ∃ c ri r0, entry q_cum i j = Some c ∧ r !! i = Some ri ∧
                       r !! 0%nat = Some r0 ∧ c + ri = r0.
Proof.
  intros Hstep. rewrite integrate_from_top_cumulative.
  destruct (decide (shape0 q_tot = 0%nat)) as [E|E].
  { destruct z; [|cbn in Hz; lia]. eexists. split; [done|]. intros i Hi. lia. }
  assert (length (column q_tot j) = shape0 q_tot) as Lc by by apply length_column.
  rewrite cumulative_accumulate_back.
  2:{ apply scale_no_zero_step; [|done]. by intros H%(f_equal this). }
  2:{ rewrite length_fmap. lia. }
  2:{ destruct z; [cbn in Hz; lia|done]. }
  eexists. split; [done|]. intros i Hi.
  destruct (entry_is_Some q_cum i j Wc) as [c Hc]; [lia|lia|].
  assert (length areas = (shape0 q_tot - 1)%nat) as La.
  { rewrite length_trapezoids; rewrite length_fmap; lia. }
  exists c, (sum_back (drop i areas)), (sum_back areas).
  split; [done|]. split; [apply accumulate_back_lookup; lia|].
  split; [|by apply q_cum_prefix].
  rewrite accumulate_back_lookup by lia. by rewrite drop_0.
Qed.
End Complement.
End Calc_ionization_exact.

(** X21.  In exact arithmetic, on a grid without repeated altitudes,
    [calc_ionization] and [integrate_from_top] split the same column
    integral: for every column [j] of [q_tot] and every row [i], the entry
    [q_cum[i, j]] (accumulated from index 0) plus the entry [i] of
    [integrate_from_top(z_cm, q_tot[:, j])] (accumulated from the last
    index) is the entry 0 of the latter, the sum of all the trapezoids. *)
Theorem calc_ionization_complements_integrate_from_top
    (Qe z : list Qc) (f : array2 Qc) (H_ : list Qc) (j : nat) :
  well_shaped f → length Qe = shape1 f → length H_ = shape0 f →
  length z = shape0 f → no_zero_step z = true → j < shape1 f →
  ∃ q_cum q_tot r,
    calc_ionization Qe z f H_ = Ok (q_cum, q_tot) ∧
    integrate_from_top ((λ x : Qc, mul x lit_1e5) <$> z) (column q_tot j)
      = Ok r ∧
    ∀ i, i < shape0 f →
         ∃ c ri r0, entry q_cum i j = Some c ∧ r !! i = Some ri ∧
                    r !! 0 = Some r0 ∧ (c + ri = r0)%Qc.
Proof.
  intros Hf HQe HH Hz Hstep Hj.
  destruct (calc_ionization_postcondition Qe z f H_ Hf HQe HH)
    as (q_cum & q_tot & Hrun & Wc & Wq & C0 & C1 & Q0 & Q1 & _ & Z0 & R); [lia|].
  destruct (q_cum_complement z q_cum q_tot j) as (r & Hr & Hsum);
    try done; try congruence.
  { by rewrite Q0, Q1. }
  exists q_cum, q_tot, r. split; [done|]. split; [done|].
  intros i Hi. apply Hsum. lia.
Qed.

(** X22.  In exact arithmetic, for non-negative fluxes and dissipation
    fractions and positive scale heights, every entry of [q_tot] is
    non-negative, and the sign of [q_cum] follows the storage order: on a
    strictly decreasing altitude grid (top first, as the tests store it)
    every entry of [q_cum] is non-positive and the entries do not grow
    down a column; on a strictly increasing grid they are non-negative
    and do not shrink. *)
Theorem calc_ionization_sign
    (Qe z : list Qc) (f : array2 Qc) (H_ : list Qc) :
  well_shaped f → length Qe = shape1 f → length H_ = shape0 f →
  shape0 f ≤ length z →
  Forall (Qcle (Exact.of_Z 0)) Qe →
  Forall (Forall (Qcle (Exact.of_Z 0))) (rows f) →
  Forall (Qclt (Exact.of_Z 0)) H_ →
  ∃ q_cum q_tot,
    calc_ionization Qe z f H_ = Ok (q_cum, q_tot) ∧
    well_shaped q_cum ∧ shape0 q_cum = shape0 f ∧ shape1 q_cum = shape1 f ∧
    (∀ i j v, entry q_tot i j = Some v → (Exact.of_Z 0 <= v)%Qc) ∧
    (decreasing z = true →
     ∀ i j c, entry q_cum i j = Some c →
       (c <= Exact.of_Z 0)%Qc ∧
       ∀ c', entry q_cum (S i) j = Some c' → (c' <= c)%Qc) ∧
    (increasing z = true →
     ∀ i j c, entry q_cum i j = Some c →
       (Exact.of_Z 0 <= c)%Qc ∧
       ∀ c', entry q_cum (S i) j = Some c' → (c <= c')%Qc).
Proof.
  intros Hf HQe HH Hz PQe Pf PH.
  destruct (calc_ionization_postcondition Qe z f H_ Hf HQe HH Hz)
    as (q_cum & q_tot & Hrun & Wc & Wq & C0 & C1 & Q0 & Q1 & E & Z0 & R).
  assert (∀ i j v, entry q_tot i j = Some v → (Exact.of_Z 0 <= v)%Qc) as Hq.
  { intros i j v Hv. destruct (entry_lt _ _ _ _ Wq Hv) as [Hi Hj].
    destruct (lookup_lt_is_Some_2 Qe j) as [q Hq]; [lia|].
    destruct (lookup_lt_is_Some_2 H_ i) as [h Hh]; [lia|].
    destruct (entry_is_Some f i j Hf) as [x Hx]; [lia|lia|].
    rewrite (E i j q x h Hq Hx Hh) in Hv. simplify_eq.
    pose proof (proj1 (Forall_lookup _ _) PQe j q Hq) as Pq.
    pose proof (proj1 (Forall_lookup _ _) PH i h Hh) as Ph.
    unfold entry in Hx. apply bind_Some in Hx as (row & Hrow & Hx).
    pose proof (proj1 (Forall_lookup _ _) Pf i row Hrow) as Prow.
    pose proof (proj1 (Forall_lookup _ _) Prow j x Hx) as Px.
    cbn beta in Pq, Ph, Px. to_Qc. unfold Qcdiv.
    apply Exact_facts.mult_nonneg; [|by apply inv_nonneg].
    apply Exact_facts.mult_nonneg; [|done].
    apply Exact_facts.mult_nonneg; [done|].
    apply inv_nonneg, IONIZATION_ENERGY_KEV_pos. }
  exists q_cum, q_tot.
  split; [done|]. split; [done|]. split; [done|]. split; [done|].
  split; [done|].
  assert (shape0 q_cum = shape0 q_tot) as S0 by congruence.
  assert (shape1 q_cum = shape1 q_tot) as S1 by congruence.
  assert (shape0 q_tot ≤ length z) as Hz' by lia.
  assert (∀ j, 0 < shape0 q_tot → j < shape1 q_tot →
               entry q_cum 0 j = Some 0%Qc) as Z0'.
  { intros j ? ?. apply Z0; lia. }
  split; intros Hz0 i j c Hc; (split; [|intros c' Hc']).
  - by apply (q_cum_nonpos z q_cum q_tot Wc Wq S0 S1 Hz' Z0' R Hq i j).
  - by apply (q_cum_step_decreasing z q_cum q_tot Wc Wq S0 S1 Hz' Z0' R Hq i j).
  - by apply (q_cum_nonneg z q_cum q_tot Wc Wq S0 S1 Hz' Z0' R Hq i j).
  - by apply (q_cum_step_increasing z q_cum q_tot Wc Wq S0 S1 Hz' Z0' R Hq i j).
Qed.

Lemma calc_ionization_complements_integrate_from_top_witness :
  let Qe := Exact.of_Z <$> [7; 14]%Z in
  let z := Exact.of_Z <$> [3; 2; 1]%Z in
  let f := mk_array2 3 2 [Exact.of_Z <$> [1; 2]%Z; Exact.of_Z <$> [3; 4]%Z;
                          Exact.of_Z <$> [5; 6]%Z] in
  let H_ := Exact.of_Z <$> [1; 2; 4]%Z in
  well_shaped f ∧ length Qe = shape1 f ∧ length H_ = shape0 f ∧
  length z = shape0 f ∧ no_zero_step z = true ∧ 1 < shape1 f ∧
  ∃ q_cum q_tot r,
    calc_ionization Qe z f H_ = Ok (q_cum, q_tot) ∧
    integrate_from_top ((λ x : Qc, mul x lit_1e5) <$> z) (column q_tot 1)
      = Ok r ∧
    ∀ i, i < shape0 f →
         ∃ c ri r0, entry q_cum i 1 = Some c ∧ r !! i = Some ri ∧
                    r !! 0 = Some r0 ∧ (c + ri = r0)%Qc.
Proof.
  cbv zeta.
  split; [split; [reflexivity|repeat constructor]|].
  split; [reflexivity|]. split; [reflexivity|]. split; [reflexivity|].
  split; [reflexivity|]. split; [simpl; lia|].
  apply (calc_ionization_complements_integrate_from_top
           (Exact.of_Z <$> [7; 14]%Z) (Exact.of_Z <$> [3; 2; 1]%Z)
           (mk_array2 3 2 [Exact.of_Z <$> [1; 2]%Z; Exact.of_Z <$> [3; 4]%Z;
                           Exact.of_Z <$> [5; 6]%Z])
           (Exact.of_Z <$> [1; 2; 4]%Z) 1).
  - split; [reflexivity|repeat constructor].
  - reflexivity.
  - reflexivity.
  - reflexivity.
  - reflexivity.
  - simpl; lia.
Defined.

Lemma calc_ionization_sign_witness :
  let Qe := Exact.of_Z <$> [7; 14]%Z in
  let z := Exact.of_Z <$> [3; 2; 1]%Z in
  let f := mk_array2 3 2 [Exact.of_Z <$> [1; 2]%Z; Exact.of_Z <$> [3; 4]%Z;
                          Exact.of_Z <$> [5; 6]%Z] in
  let H_ := Exact.of_Z <$> [1; 2; 4]%Z in
  well_shaped f ∧ length Qe = shape1 f ∧ length H_ = shape0 f ∧
  shape0 f ≤ length z ∧
  Forall (Qcle (Exact.of_Z 0)) Qe ∧
  Forall (Forall (Qcle (Exact.of_Z 0))) (rows f) ∧
  Forall (Qclt (Exact.of_Z 0)) H_ ∧
  ∃ q_cum q_tot,
    calc_ionization Qe z f H_ = Ok (q_cum, q_tot) ∧
    well_shaped q_cum ∧ shape0 q_cum = shape0 f ∧ shape1 q_cum = shape1 f ∧
    (∀ i j v, entry q_tot i j = Some v → (Exact.of_Z 0 <= v)%Qc) ∧
    (decreasing z = true →
     ∀ i j c, entry q_cum i j = Some c →
       (c <= Exact.of_Z 0)%Qc ∧
       ∀ c', entry q_cum (S i) j = Some c' → (c' <= c)%Qc) ∧
    (increasing z = true →
     ∀ i j c, entry q_cum i j = Some c →
       (Exact.of_Z 0 <= c)%Qc ∧
       ∀ c', entry q_cum (S i) j = Some c' → (c <= c')%Qc).
Proof.
  cbv zeta.
  split; [split; [reflexivity|repeat constructor]|].
  split; [reflexivity|]. split; [reflexivity|]. split; [simpl; lia|].
  split; [repeat constructor; by vm_compute|].
  split; [repeat constructor; by vm_compute|].
  split; [repeat constructor; by vm_compute|].
  apply (calc_ionization_sign
           (Exact.of_Z <$> [7; 14]%Z) (Exact.of_Z <$> [3; 2; 1]%Z)
           (mk_array2 3 2 [Exact.of_Z <$> [1; 2]%Z; Exact.of_Z <$> [3; 4]%Z;
                           Exact.of_Z <$> [5; 6]%Z])
           (Exact.of_Z <$> [1; 2; 4]%Z)).
  - split; [reflexivity|repeat constructor].
  - reflexivity.
  - reflexivity.
  - simpl; lia.
  - repeat constructor; by vm_compute.
  - repeat constructor; by vm_compute.
  - repeat constructor; by vm_compute.
Defined.
